(** * The Telegram sender of satori: batching renderer and attachment resolver

    A shallow embedding of [adapters/telegram/src/sender.ts]: the functions
    [maybeFile], [isGif] and the methods of the class [Sender]
    ([sendAsset], [sendBuffer], [render], [sendMessage], [send]).

    JavaScript strings are modelled as [string]; objects used as
    dictionaries whose key order is observable (the pending payload, which
    is enumerated by [for ... in]) are association lists in insertion order;
    the attribute object of a node is a [gmap].  The mutable fields of the
    sender and the observable actions of its collaborators (logger, MIME
    sniffer, file system, bot API) are threaded through a state and
    exception monad that also records every intermediate state. *)

From Stdlib.Strings Require Import Ascii String Byte.
From Stdlib Require Import NArith.
From stdpp Require Import base option list gmap strings.

Set Warnings "-register-all".

(** ** JavaScript string primitives *)

Module JsString.

(** [c.toLowerCase()] on one character of a string of bytes: the ASCII
    capitals are mapped, every other byte is kept. *)
Definition lower (c : ascii) : ascii :=
  let n := N_of_ascii c in
  if ((65 <=? n) && (n <=? 90))%N then ascii_of_N (n + 32) else c.

(** [s.toLowerCase()]. *)
Fixpoint toLowerCase (s : string) : string :=
  match s with
  | "" => ""
  | String c s' => String (lower c) (toLowerCase s')
  end.

(** [s.endsWith(suf)]. *)
Fixpoint endsWith (s suf : string) : bool :=
  String.eqb s suf ||
  match s with
  | "" => false
  | String _ s' => endsWith s' suf
  end.

(** [s.includes(sep)]. *)
Fixpoint includes (s sep : string) : bool :=
  String.prefix sep s ||
  match s with
  | "" => false
  | String _ s' => includes s' sep
  end.

(** [s.split(sep)] for a non-empty separator: occurrences are found from
    left to right and do not overlap.  [skip] counts the characters of a
    separator occurrence that are still to be dropped. *)
Fixpoint split_from (skip : nat) (sep s : string) : list string :=
  match s with
  | "" => [""]
  | String c s' =>
      match skip with
      | S k => split_from k sep s'
      | O =>
          if String.prefix sep s
          then "" :: split_from (String.length sep - 1) sep s'
          else match split_from 0 sep s' with
               | seg :: rest => String c seg :: rest
               | [] => [String c ""]
               end
      end
  end.

Definition split (s sep : string) : list string := split_from 0 sep s.

(** Truthiness of a value that is a string or [undefined]. *)
Definition truthy (v : option string) : bool :=
  match v with
  | Some s => negb (String.eqb s "")
  | None => false
  end.

(** [a || b] on values that are strings or [undefined]. *)
Definition or_else (a b : option string) : option string :=
  if truthy a then a else b.

(** String conversion of a string-or-undefined operand of [+] or of a
    template literal. *)
Definition to_str (v : option string) : string :=
  match v with
  | Some s => s
  | None => "undefined"
  end.

End JsString.

(** ** Data model *)

(** [type AssetType = 'photo' | 'audio' | 'document' | 'video' | 'animation'] *)
Inductive AssetType := photo | audio | document | video | animation.

Global Instance AssetType_eq_dec : EqDecision AssetType.
Proof. solve_decision. Defined.

(** The payload key of a slot: the literal of the union type. *)
Definition slot (t : AssetType) : string :=
  match t with
  | photo => "photo"
  | audio => "audio"
  | document => "document"
  | video => "video"
  | animation => "animation"
  end.

(** The table [assetApi]. *)
Definition assetApi (t : AssetType) : string :=
  match t with
  | photo => "sendPhoto"
  | audio => "sendAudio"
  | document => "sendDocument"
  | video => "sendVideo"
  | animation => "sendAnimation"
  end.

Definition all_slots : list AssetType := [photo; audio; document; video; animation].

(** A [segment]: its [type], its attribute object and its children.
    Attribute values are strings; an absent attribute reads as [undefined]. *)
Inductive segment :=
  Segment (type : string) (attrs : gmap string string) (children : list segment).

(** The pending payload, a [Dict].  Keys are kept in insertion order, as
    [for ... in] enumerates them; a value is a string or [undefined]. *)
Module Dict.

Definition t := list (string * option string).

(** [k in d] *)
Fixpoint has (d : t) (k : string) : bool :=
  match d with
  | [] => false
  | (k', _) :: d' => String.eqb k' k || has d' k
  end.

(** [d[k]]: an absent key reads as [undefined]. *)
Fixpoint get (d : t) (k : string) : option string :=
  match d with
  | [] => None
  | (k', v) :: d' => if String.eqb k' k then v else get d' k
  end.

(** [d[k] = v]: an existing key keeps its place, a new key goes last. *)
Fixpoint set (d : t) (k : string) (v : option string) : t :=
  match d with
  | [] => [(k, v)]
  | (k', v') :: d' =>
      if String.eqb k' k then (k, v) :: d' else (k', v') :: set d' k v
  end.

(** [delete d[k]] *)
Fixpoint del (d : t) (k : string) : t :=
  match d with
  | [] => []
  | (k', v') :: d' =>
      if String.eqb k' k then del d' k else (k', v') :: del d' k
  end.

Definition keys (d : t) : list string := map fst d.

End Dict.

Definition bytes := list byte.

(** What an attachment resolves to: a read stream on a local path, or a
    [Buffer]. *)
Inductive Content :=
  | ReadStream (path : string)
  | Buffer (b : bytes).

(** One field of a [FormData]. *)
Inductive FieldVal :=
  | FText (v : string)
  | FFile (content : Content) (filename : option string).

Definition FormData := list (string * FieldVal).

(** One call of the bot API: [sendMessage] with its object argument, or one
    of the five asset methods with its form. *)
Inductive Call :=
  | SendMessage (chat_id text : string) (parse_mode reply_to_message_id : option string)
  | SendAsset (method : string) (form : FormData).

(** What the collaborators of the sender observe, in order. *)
Inductive Event :=
  | Warn (msg : string)
  | Sniff (b : bytes)
  | OpenStream (path : string)
  | ApiCall (c : Call).

(** Thrown values.  The argument of [TypeError] names the operation that
    raised it. *)
Inductive Err :=
  | TypeError (what : string)
  | ApiError (e : string)
  | AggregateError (errors : list Err).

Inductive Res (A : Type) :=
  | Ok (a : A)
  | Throw (e : Err).
Arguments Ok {A} a.
Arguments Throw {A} e.

(** The collaborators the module imports: the WHATWG [URL] constructor (only
    its [protocol] is read; [None] when the constructor throws),
    [fileURLToPath] ([None] when it throws), base64 decoding of a string by
    [Buffer.from], [fromBuffer] of file-type (the extension, or [None] when
    the type cannot be inferred), the bot API, whose outcome may depend on
    everything observed before the call, and [segment.parse].  The empty
    string decodes to the empty buffer, in which no type is found. *)
Class Host := {
  Message : Type;
  URL_protocol : string → option string;
  fileURLToPath : string → option string;
  base64_decode : string → bytes;
  fromBuffer : bytes → option string;
  internal : list Event → Call → Res Message;
  segment_parse : string → list segment;
  base64_decode_empty : base64_decode "" = [];
  fromBuffer_empty : fromBuffer [] = None;
}.

Section Sender.

Context `{Host}.

(** The fields of a [Sender] instance, with the trace of what its
    collaborators have observed so far. *)
Record Sender := mkSender {
  errors : list Err;
  results : list Message;
  assetType : option AssetType;
  payload : Dict.t;
  chat_id : string;
  trace : list Event;
}.

(** [new Sender(bot, chat_id)] *)
Definition new_Sender (chat : string) : Sender :=
  {| errors := []; results := []; assetType := None;
     payload := [("chat_id", Some chat); ("caption", Some "")];
     chat_id := chat; trace := [] |}.

Definition with_results (f : list Message → list Message) (s : Sender) : Sender :=
  {| errors := errors s; results := f (results s); assetType := assetType s;
     payload := payload s; chat_id := chat_id s; trace := trace s |}.

Definition with_assetType (t : option AssetType) (s : Sender) : Sender :=
  {| errors := errors s; results := results s; assetType := t;
     payload := payload s; chat_id := chat_id s; trace := trace s |}.

Definition with_payload (f : Dict.t → Dict.t) (s : Sender) : Sender :=
  {| errors := errors s; results := results s; assetType := assetType s;
     payload := f (payload s); chat_id := chat_id s; trace := trace s |}.

Definition with_trace (f : list Event → list Event) (s : Sender) : Sender :=
  {| errors := errors s; results := results s; assetType := assetType s;
     payload := payload s; chat_id := chat_id s; trace := f (trace s) |}.

(** ** The monad of the methods

    A computation runs from a state to an outcome (a value, or a thrown
    error) and a final state, and lists every state it went through, one
    per assignment, in order. *)
Record Run (A : Type) := mkRun {
  seen : list Sender;
  outcome : Res A;
  final : Sender;
}.
Global Arguments mkRun {A}.
Global Arguments seen {A}.
Global Arguments outcome {A}.
Global Arguments final {A}.

Definition M (A : Type) : Type := Sender → Run A.

Definition ret {A} (a : A) : M A := λ s, mkRun [] (Ok a) s.

Definition throw {A} (e : Err) : M A := λ s, mkRun [] (Throw e) s.

Definition bind {A B} (m : M A) (f : A → M B) : M B := λ s,
  let r := m s in
  match outcome r with
  | Ok a =>
      let r' := f a (final r) in
      mkRun (seen r ++ seen r') (outcome r') (final r')
  | Throw e => mkRun (seen r) (Throw e) (final r)
  end.

Global Instance M_ret : MRet M := @ret.
Global Instance M_bind : MBind M := λ A B f m, bind m f.

Definition get : M Sender := λ s, mkRun [] (Ok s) s.

Definition modify (f : Sender → Sender) : M unit := λ s, mkRun [f s] (Ok tt) (f s).

Definition emit (e : Event) : M unit := modify (with_trace (λ t, t ++ [e])).

(** [this.payload[k] = v] and [delete this.payload[k]] *)
Definition payload_set (k : string) (v : option string) : M unit :=
  modify (with_payload (λ d, Dict.set d k v)).
Definition payload_delete (k : string) : M unit :=
  modify (with_payload (λ d, Dict.del d k)).

(** [logger.warn(msg)] *)
Definition warn (msg : string) : M unit := emit (Warn msg).

(** [new URL(url).protocol]; the constructor throws on what it cannot parse. *)
Definition new_URL_protocol (url : string) : M string :=
  match URL_protocol url with
  | Some p => ret p
  | None => throw (TypeError "new URL")
  end.

(** [Buffer.from(data, 'base64')]; it throws when [data] is [undefined]. *)
Definition Buffer_from (data : option string) : M bytes :=
  match data with
  | Some d => ret (base64_decode d)
  | None => throw (TypeError "Buffer.from")
  end.

(** [await fromBuffer(content)]; it rejects when [content] is no buffer. *)
Definition sniff (content : option Content) : M (option string) :=
  match content with
  | Some (Buffer b) => emit (Sniff b) ;; ret (fromBuffer b)
  | _ => throw (TypeError "fromBuffer")
  end.

(** [createReadStream(fileURLToPath(url))] *)
Definition open_file (url : string) : M Content :=
  match fileURLToPath url with
  | Some p => emit (OpenStream p) ;; ret (ReadStream p)
  | None => throw (TypeError "fileURLToPath")
  end.

(** The property key a slot value is converted to: [null] reads the key
    ["null"]. *)
Definition key_of (field : option AssetType) : string :=
  match field with
  | Some t => slot t
  | None => "null"
  end.

(** [maybeFile(payload, field)], called with the payload of the sender. *)
Definition maybeFile (field : option AssetType)
  : M (option AssetType * option Content * option string) :=
  s ← get ;
  match Dict.get (payload s) (key_of field) with
  | None => ret (None, None, None)
  | Some url =>
      if String.eqb url "" then ret (None, None, None) else
      protocol ← new_URL_protocol url ;
      let data := JsString.split url "://" !! 1 in
      content ←
        (if String.eqb protocol "file:" then
           c ← open_file url ;
           payload_delete (key_of field) ;;
           ret (Some c)
         else if String.eqb protocol "base64:" then
           b ← Buffer_from data ;
           payload_delete (key_of field) ;;
           ret (Some (Buffer b))
         else if String.eqb protocol "data:" then
           let data := JsString.split url "base64," !! 1 in
           b ← Buffer_from data ;
           payload_delete (key_of field) ;;
           ret (Some (Buffer b))
         else ret None) ;
      filename ←
        (if bool_decide (field = Some document)
            && (String.eqb protocol "base64:" || String.eqb protocol "data:")
         then
           type ← sniff content ;
           match type with
           | None => warn "Can not infer file mime" ;; ret "file"
           | Some ext => ret ("file." +:+ ext)
           end
         else ret "file") ;
      ret (field, content, Some filename)
  end.

(** [isGif(url)]; [url] is [undefined] when the node has no such attribute. *)
Definition isGif (url : option string) : M bool :=
  match url with
  | None => throw (TypeError "toLowerCase")
  | Some url =>
      if JsString.endsWith (JsString.toLowerCase url) ".gif" then ret true else
      protocol ← new_URL_protocol url ;
      let data :=
        if String.eqb protocol "base64:" then JsString.split url "://" !! 1
        else if String.eqb protocol "data:" then JsString.split url "base64," !! 1
        else None in
      if JsString.truthy data then
        b ← Buffer_from data ;
        type ← sniff (Some (Buffer b)) ;
        match type with
        | None => warn "Can not infer file mime" ;; ret false
        | Some ext => if String.eqb ext "gif" then ret true else ret false
        end
      else ret false
  end.

(** ** The class [Sender] *)

(** [await this.bot.internal[method](arg)]: the call is observed, then it
    returns a message or throws. *)
Definition call_api (c : Call) : M Message :=
  s ← get ;
  emit (ApiCall c) ;;
  match internal (trace s) c with
  | Ok msg => ret msg
  | Throw e => throw e
  end.

(** [this.results.push(msg)] *)
Definition push_result (msg : Message) : M unit :=
  modify (with_results (λ r, r ++ [msg])).

(** The loop [for (const key in this.payload)
    payload.append(key, this.payload[key].toString())]; reading [toString]
    of [undefined] throws. *)
Fixpoint append_fields (d : Dict.t) (ks : list string) : M FormData :=
  match ks with
  | [] => ret []
  | key :: ks' =>
      match Dict.get d key with
      | None => throw (TypeError "toString")
      | Some v =>
          rest ← append_fields d ks' ;
          ret ((key, FText v) :: rest)
      end
  end.

Definition sendAsset : M unit :=
  s ← get ;
  '(field, content, filename) ← maybeFile (assetType s) ;
  s' ← get ;
  form ← append_fields (payload s') (Dict.keys (payload s')) ;
  let form :=
    match field, content with
    | Some f, Some c => form ++ [(slot f, FFile c filename)]
    | _, _ => form
    end in
  msg ←
    match assetType s with
    | Some t => call_api (SendAsset (assetApi t) form)
    | None => throw (TypeError "not a function")
    end ;
  push_result msg ;;
  payload_delete (key_of (assetType s)) ;;
  payload_delete "reply_to_message" ;;
  modify (with_assetType None) ;;
  payload_set "caption" (Some "").

Definition sendBuffer : M unit :=
  s ← get ;
  if bool_decide (is_Some (assetType s)) then
    sendAsset
  else if JsString.truthy (Dict.get (payload s) "caption") then
    msg ← call_api (SendMessage (chat_id s)
                      (JsString.to_str (Dict.get (payload s) "caption"))
                      (Dict.get (payload s) "parse_mode")
                      (Dict.get (payload s) "reply_to_message_id")) ;
    push_result msg ;;
    payload_delete "reply_to_message" ;;
    payload_set "caption" (Some "")
  else ret tt.

(** [this.payload.caption += text]; the caption of a sender is a string at
    all times. *)
Definition caption_append (text : string) : M unit :=
  s ← get ;
  payload_set "caption"
    (Some (JsString.to_str (Dict.get (payload s) "caption") +:+ text)).

(** The slot of an audio or video node, [type as any]: in that branch of
    [render] the type is one of the two. *)
Definition slot_of_type (type : string) : AssetType :=
  if String.eqb type "audio" then audio else video.

(** The body of the loop of [render] for one element [e].  The method
    calls itself on the children of [e]: the body takes [render] as an
    argument, and [sendMessage] on the children is [render] followed by
    [sendBuffer]. *)
Definition render_body (render : list segment → M unit) (e : segment) : M unit :=
  let sendMessage (elements : list segment) : M unit :=
    render elements ;; sendBuffer in
  match e with
  | Segment type attrs children =>
      if String.eqb type "text" then
        caption_append (JsString.to_str (attrs !! "content"))
      else if String.eqb type "at" then
        let atTarget :=
          JsString.or_else (attrs !! "name")
            (JsString.or_else (attrs !! "id")
               (JsString.or_else (attrs !! "role") (attrs !! "type"))) in
        if JsString.truthy atTarget
        then caption_append ("@" +:+ JsString.to_str atTarget +:+ " ")
        else ret tt
      else if String.eqb type "sharp" then
        let sharpTarget := JsString.or_else (attrs !! "name") (attrs !! "id") in
        if JsString.truthy sharpTarget
        then caption_append ("#" +:+ JsString.to_str sharpTarget +:+ " ")
        else ret tt
      else if bool_decide (type ∈ ["image"; "audio"; "video"; "file"]) then
        sendBuffer ;;
        t ← (if String.eqb type "image" then
               gif ← isGif (attrs !! "url") ;
               ret (if (gif : bool) then animation else photo)
             else if String.eqb type "file" then ret document
             else ret (slot_of_type type)) ;
        modify (with_assetType (Some t)) ;;
        payload_set (slot t) (attrs !! "url")
      else if String.eqb type "quote" then
        sendBuffer ;;
        payload_set "reply_to_message_id" (attrs !! "id")
      else if String.eqb type "message" then
        sendBuffer ;;
        if bool_decide (is_Some (attrs !! "quote"))
        then payload_set "reply_to_message_id" (attrs !! "id")
        else sendMessage children
      else if String.eqb type "markdown" then
        sendBuffer ;;
        payload_set "parse_mode" (Some "MarkdownV2")
      else if String.eqb type "html" then
        sendBuffer ;;
        payload_set "parse_mode" (Some "html")
      else render children
  end.

(** The loop body on one element, with [render] tied to the loop over the
    children. *)
Fixpoint render_node (e : segment) : M unit :=
  render_body
    (fix render (elements : list segment) : M unit :=
       match elements with
       | [] => ret tt
       | e' :: rest => render_node e' ;; render rest
       end) e.

(** [for (const { type, attrs, children } of elements) ...] *)
Fixpoint render (elements : list segment) : M unit :=
  match elements with
  | [] => ret tt
  | e :: rest => render_node e ;; render rest
  end.

Definition sendMessage (elements : list segment) : M unit :=
  render elements ;; sendBuffer.

Definition send (content : string) : M (list Message) :=
  let elements := segment_parse content in
  sendMessage elements ;;
  s ← get ;
  match errors s with
  | [] => ret (results s)
  | _ => throw (AggregateError (errors s))
  end.

End Sender.

(** ** A reference host

    A concrete instance of the collaborators, on which the methods can be
    run: a scheme scanner for [URL], a POSIX [fileURLToPath] without
    percent-decoding, a base64 decoder, a sniffer that knows three magic
    numbers, and a bot API and a parser given as arguments. *)
Module RefHost.

Definition is_alpha (c : ascii) : bool :=
  let n := N_of_ascii (JsString.lower c) in ((97 <=? n) && (n <=? 122))%N.

Definition is_digit (c : ascii) : bool :=
  let n := N_of_ascii c in ((48 <=? n) && (n <=? 57))%N.

Definition is_scheme_char (c : ascii) : bool :=
  is_alpha c || is_digit c
  || Ascii.eqb c "+" || Ascii.eqb c "-" || Ascii.eqb c ".".

(** The scheme state of the URL parser: scheme characters up to the first
    colon, in lower case. *)
Fixpoint scheme_rest (s : string) : option string :=
  match s with
  | "" => None
  | String c s' =>
      if Ascii.eqb c ":" then Some ":"
      else if is_scheme_char c
      then String (JsString.lower c) <$> scheme_rest s'
      else None
  end.

Definition protocol (url : string) : option string :=
  match url with
  | "" => None
  | String c _ => if is_alpha c then scheme_rest url else None
  end.

Definition drop (n : nat) (s : string) : string :=
  String.substring n (String.length s - n) s.

Definition file_path (url : string) : option string :=
  if String.prefix "file:///" url then Some (drop 7 url) else None.

Definition sextet (c : ascii) : option N :=
  let n := N_of_ascii c in
  if ((65 <=? n) && (n <=? 90))%N then Some (n - 65)%N
  else if ((97 <=? n) && (n <=? 122))%N then Some (n - 71)%N
  else if ((48 <=? n) && (n <=? 57))%N then Some (n + 4)%N
  else if Ascii.eqb c "+" || Ascii.eqb c "-" then Some 62%N
  else if Ascii.eqb c "/" || Ascii.eqb c "_" then Some 63%N
  else None.

(** Characters outside the alphabet are passed over; padding ends the
    input. *)
Fixpoint sextets (s : string) : list N :=
  match s with
  | "" => []
  | String c s' =>
      if Ascii.eqb c "=" then []
      else match sextet c with
           | Some n => n :: sextets s'
           | None => sextets s'
           end
  end.

Definition byte_of (n : N) : byte :=
  default x00 (Byte.of_N (n mod 256)%N).

Fixpoint group (l : list N) : bytes :=
  match l with
  | a :: b :: c :: d :: rest =>
      let n := (a * 262144 + b * 4096 + c * 64 + d)%N in
      byte_of (n / 65536) :: byte_of (n / 256) :: byte_of n :: group rest
  | [a; b; c] =>
      let n := (a * 262144 + b * 4096 + c * 64)%N in
      [byte_of (n / 65536); byte_of (n / 256)]
  | [a; b] => [byte_of ((a * 262144 + b * 4096) / 65536)]
  | _ => []
  end.

Definition decode (s : string) : bytes := group (sextets s).

Definition magic (b : bytes) : option string :=
  match b with
  | x47 :: x49 :: x46 :: x38 :: _ => Some "gif"
  | x89 :: x50 :: x4e :: x47 :: _ => Some "png"
  | xff :: xd8 :: xff :: _ => Some "jpg"
  | _ => None
  end.

Definition is_call (e : Event) : bool :=
  match e with
  | ApiCall _ => true
  | _ => false
  end.

(** A bot that accepts every call and numbers its messages. *)
Definition accept_all (tr : list Event) (c : Call) : Res nat :=
  Ok (length (filter is_call tr)).

(** A bot that rejects the first call and accepts the later ones. *)
Definition reject_first (tr : list Event) (c : Call) : Res nat :=
  match filter is_call tr with
  | [] => Throw (ApiError "Bad Request")
  | calls => Ok (length calls)
  end.

Definition host (api : list Event → Call → Res nat)
    (parse : string → list segment) : Host :=
  {| Message := nat;
     URL_protocol := protocol;
     fileURLToPath := file_path;
     base64_decode := decode;
     fromBuffer := magic;
     internal := api;
     segment_parse := parse;
     base64_decode_empty := eq_refl;
     fromBuffer_empty := eq_refl |}.

End RefHost.

(** ** Sample inputs *)

Module Sample.

Definition text (content : string) : segment :=
  Segment "text" {[ "content" := content ]} [].

Definition quote (id : string) : segment := Segment "quote" {[ "id" := id ]} [].

Definition markdown : segment := Segment "markdown" ∅ [].

Definition image (url : string) : segment :=
  Segment "image" {[ "url" := url ]} [].

Definition file (url : string) : segment := Segment "file" {[ "url" := url ]} [].

(** What the parser returns on the sample contents. *)
Definition parse (content : string) : list segment :=
  if String.eqb content "a<markdown/>b" then [text "a"; markdown; text "b"]
  else if String.eqb content "<quote id=7/>a<markdown/>b"
  then [quote "7"; text "a"; markdown; text "b"]
  else [].

(** A host whose bot accepts every call. *)
Definition accepting : Host := RefHost.host RefHost.accept_all parse.

(** A host whose bot rejects the first call only. *)
Definition failing_once : Host := RefHost.host RefHost.reject_first parse.

End Sample.

(** ** Notions the properties are stated with *)

Section Notions.

Context `{Host}.

(** An inline-base64 or data reference whose decoded bytes sniff as gif:
    the text [d] after the marker is there and its decoding is recognised
    with extension [gif]. *)
Definition sniffs_as_gif (url : string) : Prop :=
  ∃ d, fromBuffer (base64_decode d) = Some "gif" ∧
    ((URL_protocol url = Some "base64:" ∧ JsString.split url "://" !! 1 = Some d) ∨
     (URL_protocol url = Some "data:" ∧ JsString.split url "base64," !! 1 = Some d)).

(** The run of [maybeFile] on decoded inline content [b]: the slot is
    deleted, and for the document slot the bytes are sniffed. *)
Definition inline_run (field : option AssetType) (b : bytes) (s : Sender)
  : Run (option AssetType * option Content * option string) :=
  let s1 := with_payload (λ d, Dict.del d (key_of field)) s in
  if bool_decide (field = Some document) then
    let s2 := with_trace (λ t, t ++ [Sniff b]) s1 in
    match fromBuffer b with
    | Some ext => mkRun [s1; s2] (Ok (field, Some (Buffer b), Some ("file." +:+ ext))) s2
    | None =>
        let s3 := with_trace (λ t, t ++ [Warn "Can not infer file mime"]) s2 in
        mkRun [s1; s2; s3] (Ok (field, Some (Buffer b), Some "file")) s3
    end
  else mkRun [s1] (Ok (field, Some (Buffer b), Some "file")) s1.

Definition inline_or_throw (field : option AssetType) (data : option string)
    (s : Sender) : Run (option AssetType * option Content * option string) :=
  match data with
  | Some d => inline_run field (base64_decode d) s
  | None => mkRun [] (Throw (TypeError "Buffer.from")) s
  end.


(** A triple for the methods, over an invariant [I]: from a state that
    satisfies [I] and [P], every state the computation goes through and the
    state it ends in, normally or by a throw, satisfy [I], and a normal
    return satisfies [Q]. *)
Definition hoare (I : Sender → Prop) {A} (P : Sender → Prop) (m : M A)
    (Q : A → Sender → Prop) : Prop :=
  ∀ s, I s → P s →
    Forall I (seen (m s)) ∧ I (final (m s)) ∧
    ∀ a, outcome (m s) = Ok a → Q a (final (m s)).

(** The attachment slots the payload holds. *)
Definition occupied (s : Sender) : list AssetType :=
  List.filter (λ t, Dict.has (payload s) (slot t)) all_slots.

Definition at_most_one (s : Sender) : Prop := length (occupied s) ≤ 1.

(** The only slot the payload may hold is the one [assetType] names. *)
Definition slots_ok (s : Sender) : Prop :=
  ∀ t, Dict.has (payload s) (slot t) = true → assetType s = Some t.

(** No asset is pending. *)
Definition idle (s : Sender) : Prop :=
  assetType s = None ∧ occupied s = [].

(** [s'] has the [assetType] of [s] and no payload key that [s] lacks. *)
Definition shrinks (s s' : Sender) : Prop :=
  assetType s' = assetType s
  ∧ ∀ k, Dict.has (payload s') k = true → Dict.has (payload s) k = true.

(** The first of the values that is present and not empty. *)
Fixpoint first_nonempty (vs : list (option string)) : option string :=
  match vs with
  | [] => None
  | Some v :: vs' => if String.eqb v "" then first_nonempty vs' else Some v
  | None :: vs' => first_nonempty vs'
  end.

(** The state after [text] has been appended to the caption. *)
Definition appended (text : string) (s : Sender) : Sender :=
  with_payload
    (λ d, Dict.set d "caption"
            (Some (JsString.to_str (Dict.get d "caption") +:+ text))) s.

(** The state after the slot [t] has been occupied with [url]. *)
Definition occupying (t : AssetType) (url : option string) (s : Sender) : Sender :=
  with_payload (λ d, Dict.set d (slot t) url) (with_assetType (Some t) s).
(** The node types whose branch of [render] starts with [sendBuffer]. *)
Definition flushing_types : list string :=
  ["image"; "audio"; "video"; "file"; "quote"; "message"; "markdown"; "html"].

(** Every state a computation goes through, and the state it ends in,
    normally or by a throw, satisfies [I] when the first one does. *)
Definition preserved (I : Sender → Prop) {A} (m : M A) : Prop :=
  ∀ s, I s → Forall I (seen (m s)) ∧ I (final (m s)).
(** The node types [render] has a branch for. *)
Definition known_types : list string :=
  ["text"; "at"; "sharp"; "image"; "audio"; "video"; "file"; "quote";
   "message"; "markdown"; "html"].

(** Nothing is pending: no asset, and a caption that is empty. *)
Definition flushed (s : Sender) : Prop :=
  assetType s = None ∧ JsString.truthy (Dict.get (payload s) "caption") = false.

(** A triple on final states only: from a state that satisfies [P] and
    [Pre], the state the computation ends in, normally or by a throw,
    satisfies [P], and a normal return satisfies [Q]. *)
Definition ends (P : Sender → Prop) {A} (Pre : Sender → Prop) (m : M A)
    (Q : A → Sender → Prop) : Prop :=
  ∀ s, P s → Pre s →
    P (final (m s)) ∧ ∀ a, outcome (m s) = Ok a → Q a (final (m s)).

(** An event that is no call of the bot API. *)
Definition quiet (e : Event) : Prop :=
  match e with
  | ApiCall _ => False
  | _ => True
  end.

(** The calls a flush may make in state [s]: a plain-text send to the chat
    of the sender with the format mode and the reply-to identifier of the
    payload, or an asset send whose form holds every defined field of the
    payload as text. *)
Definition issued (s : Sender) (c : Call) : Prop :=
  match c with
  | SendMessage chat _ parse_mode reply_to =>
      chat = chat_id s
      ∧ parse_mode = Dict.get (payload s) "parse_mode"
      ∧ reply_to = Dict.get (payload s) "reply_to_message_id"
  | SendAsset _ form =>
      ∀ k v, Dict.get (payload s) k = Some v → (k, FText v) ∈ form
  end.

(** The state after the call [c] has been observed and answered. *)
Definition answered (c : Call) (s : Sender) : Sender :=
  let s' := with_trace (λ t, t ++ [ApiCall c]) s in
  match internal (trace s) c with
  | Ok msg => with_results (λ r, r ++ [msg]) s'
  | Throw _ => s'
  end.

(** The final state satisfies [P] whenever the first one does. *)
Definition kept (P : Sender → Prop) {A} (m : M A) : Prop :=
  ends P (λ _, True) m (λ _ _, True).

(** What the bot answers to an event observed after [tr]: the message of a
    call it accepts. *)
Definition reply (tr : list Event) (e : Event) : list Message :=
  match e with
  | ApiCall c =>
      match internal tr c with
      | Ok msg => [msg]
      | Throw _ => []
      end
  | _ => []
  end.

(** The messages the bot returned along the events [evs] observed after
    [pre], in order. *)
Fixpoint answers_from (pre evs : list Event) : list Message :=
  match evs with
  | [] => []
  | e :: evs' => reply pre e ++ answers_from (pre ++ [e]) evs'
  end.

Definition answers (tr : list Event) : list Message := answers_from [] tr.

(** A call is addressed to [chat]. *)
Definition targets (chat : string) (c : Call) : Prop :=
  match c with
  | SendMessage chat' _ _ _ => chat' = chat
  | SendAsset _ form => ("chat_id", FText chat) ∈ form
  end.

(** The nodes that only add to the caption. *)
Definition is_inline (e : segment) : bool :=
  match e with
  | Segment type _ _ => bool_decide (type ∈ ["text"; "at"; "sharp"])
  end.

(** What an inline node appends to the caption, if anything. *)
Definition fragment (e : segment) : option string :=
  match e with
  | Segment type attrs _ =>
      if String.eqb type "text" then Some (JsString.to_str (attrs !! "content"))
      else if String.eqb type "at" then
        (λ target, "@" +:+ target +:+ " ") <$>
          first_nonempty [attrs !! "name"; attrs !! "id"; attrs !! "role";
                          attrs !! "type"]
      else if String.eqb type "sharp" then
        (λ target, "#" +:+ target +:+ " ") <$>
          first_nonempty [attrs !! "name"; attrs !! "id"]
      else None
  end.

(** The caption [cap] after the inline nodes [elements]. *)
Definition captioned (cap : string) (elements : list segment) : string :=
  foldl (λ cap e, from_option (String.append cap) cap (fragment e)) cap elements.

(** A sender with no error recorded whose payload holds the chat, the
    caption [cap] and, when an asset is pending, its slot with the
    reference. *)
Definition resting (chat cap : string) (pend : option (AssetType * string))
    (res : list Message) (tr : list Event) : Sender :=
  {| errors := []; results := res; assetType := fst <$> pend;
     payload :=
       ("chat_id", Some chat) :: ("caption", Some cap) ::
       match pend with
       | Some (t, u) => [(slot t, Some u)]
       | None => []
       end;
     chat_id := chat; trace := tr |}.

(** A reference that is left to the API as a plain string: it is not empty
    and its scheme is none of [file:], [base64:], [data:]. *)
Definition remote (u : string) : Prop :=
  u ≠ "" ∧ ∃ p, URL_protocol u = Some p
                ∧ p ≠ "file:" ∧ p ≠ "base64:" ∧ p ≠ "data:".

(** The slot a media node of type [type] with the remote reference [u]
    occupies. *)
Definition slot_for (type u : string) : AssetType :=
  if String.eqb type "image" then
    if JsString.endsWith (JsString.toLowerCase u) ".gif" then animation else photo
  else if String.eqb type "file" then document
  else slot_of_type type.

(** An inline node, or a media node with a remote reference. *)
Definition simple (e : segment) : Prop :=
  is_inline e = true
  ∨ match e with
    | Segment type attrs _ =>
        type ∈ ["image"; "audio"; "video"; "file"]
        ∧ ∃ u, attrs !! "url" = Some u ∧ remote u
    end.

(** The call, if any, that sends the caption [cap] and the pending asset. *)
Definition flush_calls (chat cap : string) (pend : option (AssetType * string))
  : list Call :=
  match pend with
  | Some (t, u) =>
      [SendAsset (assetApi t)
         [("chat_id", FText chat); ("caption", FText cap); (slot t, FText u)]]
  | None => if String.eqb cap "" then [] else [SendMessage chat cap None None]
  end.

(** The calls of a walk over simple nodes, written down directly: inline
    nodes extend the caption; a media node sends what is pending and
    becomes the pending asset; the end sends what is pending. *)
Fixpoint plan (chat cap : string) (pend : option (AssetType * string))
    (elements : list segment) : list Call :=
  match elements with
  | [] => flush_calls chat cap pend
  | Segment type attrs children :: rest =>
      if is_inline (Segment type attrs children) then
        plan chat
          (from_option (String.append cap) cap
             (fragment (Segment type attrs children)))
          pend rest
      else
        flush_calls chat cap pend
        ++ plan chat "" (Some (slot_for type (default "" (attrs !! "url")),
                               default "" (attrs !! "url"))) rest
  end.
End Notions.

(** * Properties *)

(** ** The primitives on examples *)

Example split_scheme :
  JsString.split "base64://QUJD" "://" = ["base64"; "QUJD"].
Proof. reflexivity. Qed.

Example split_trailing : JsString.split "a://" "://" = ["a"; ""].
Proof. reflexivity. Qed.

Example split_no_separator : JsString.split "base64:QUJD" "://" !! 1 = None.
Proof. reflexivity. Qed.

Example split_marker :
  JsString.split "data:image/png;base64,iVBORw0K" "base64," !! 1
  = Some "iVBORw0K".
Proof. reflexivity. Qed.

Example endsWith_gif :
  JsString.endsWith (JsString.toLowerCase "https://x/Y.GiF") ".gif" = true.
Proof. reflexivity. Qed.

Example decode_gif :
  RefHost.decode "R0lGODlh" = [x47; x49; x46; x38; x39; x61].
Proof. reflexivity. Qed.

Example magic_png : RefHost.magic (RefHost.decode "iVBORw0KGgo=") = Some "png".
Proof. reflexivity. Qed.

Example protocol_https : RefHost.protocol "HTTPS://x/y.png" = Some "https:".
Proof. reflexivity. Qed.

Example protocol_none : RefHost.protocol "x/y.png" = None.
Proof. reflexivity. Qed.

Example file_path_tmp : RefHost.file_path "file:///tmp/a.gif" = Some "/tmp/a.gif".
Proof. reflexivity. Qed.

(** ** Facts on dictionaries *)

Module DictFacts.

Lemma get_set_eq d k v : Dict.get (Dict.set d k v) k = v.
Proof.
  induction d as [|[k' v'] d IH]; simpl.
  - by rewrite String.eqb_refl.
  - destruct (String.eqb k' k) eqn:E; simpl.
    + by rewrite String.eqb_refl.
    + by rewrite E.
Qed.

Lemma get_set_ne d k k' v : k ≠ k' → Dict.get (Dict.set d k v) k' = Dict.get d k'.
Proof.
  intros Hne. induction d as [|[k0 v0] d IH]; simpl.
  - by apply String.eqb_neq in Hne as ->.
  - destruct (String.eqb k0 k) eqn:E; simpl.
    + apply String.eqb_eq in E as ->.
      by apply String.eqb_neq in Hne as ->.
    + by rewrite IH.
Qed.

Lemma get_del_eq d k : Dict.get (Dict.del d k) k = None.
Proof.
  induction d as [|[k' v'] d IH]; simpl; [done|].
  destruct (String.eqb k' k) eqn:E; simpl; [done|]. by rewrite E.
Qed.

Lemma get_del_ne d k k' : k ≠ k' → Dict.get (Dict.del d k) k' = Dict.get d k'.
Proof.
  intros Hne. induction d as [|[k0 v0] d IH]; simpl; [done|].
  destruct (String.eqb k0 k) eqn:E; simpl.
  - apply String.eqb_eq in E as ->.
    by apply String.eqb_neq in Hne as ->.
  - by rewrite IH.
Qed.

Lemma has_set d k k' v :
  Dict.has (Dict.set d k v) k' = String.eqb k k' || Dict.has d k'.
Proof.
  induction d as [|[k0 v0] d IH]; simpl.
  - done.
  - destruct (String.eqb k0 k) eqn:E; simpl.
    + apply String.eqb_eq in E as ->.
      by destruct (String.eqb k k').
    + rewrite IH. by destruct (String.eqb k0 k'), (String.eqb k k').
Qed.

Lemma has_del d k k' :
  Dict.has (Dict.del d k) k' = negb (String.eqb k k') && Dict.has d k'.
Proof.
  induction d as [|[k0 v0] d IH]; simpl.
  - by destruct (String.eqb k k').
  - destruct (String.eqb k0 k) eqn:E; simpl.
    + apply String.eqb_eq in E as ->. rewrite IH.
      by destruct (String.eqb k k').
    + rewrite IH. destruct (String.eqb k0 k') eqn:E'; simpl; [|done].
      apply String.eqb_eq in E' as ->. by rewrite (String.eqb_sym k k'), E.
Qed.

Lemma get_Some_has d k v : Dict.get d k = Some v → Dict.has d k = true.
Proof.
  induction d as [|[k0 v0] d IH]; simpl; [done|].
  destruct (String.eqb k0 k); [done|]. apply IH.
Qed.

End DictFacts.

(** ** Running the primitives *)

Section Runs.

Context `{Host}.

Lemma run_bind {A B} (m : M A) (f : A → M B) s :
  (m ≫= f) s =
    match outcome (m s) with
    | Ok a => mkRun (seen (m s) ++ seen (f a (final (m s))))
                (outcome (f a (final (m s)))) (final (f a (final (m s))))
    | Throw e => mkRun (seen (m s)) (Throw e) (final (m s))
    end.
Proof. reflexivity. Qed.

Lemma run_bind_throw {A B} (m : M A) (f : A → M B) s e :
  outcome (m s) = Throw e →
  (m ≫= f) s = mkRun (seen (m s)) (Throw e) (final (m s)).
Proof. intros E. by rewrite run_bind, E. Qed.

Lemma run_bind_pure {A B} (m : M A) (f : A → M B) s a :
  m s = mkRun [] (Ok a) s → (m ≫= f) s = f a s.
Proof. intros E. rewrite run_bind, E. simpl. by destruct (f a s). Qed.

End Runs.

(** Unfolds the monad and the primitives in the goal. *)
Ltac run_unfold :=
  unfold mbind, M_bind, mret, M_ret, bind, ret, throw, get, modify, emit,
    warn, payload_set, payload_delete; simpl.

(** ** Facts on [split] *)

Module SplitFacts.
Import JsString.

Lemma split_base64 d :
  split ("base64://" +:+ d) "://" = "base64" :: split d "://".
Proof.
  unfold split. cbv [String.append]. simpl.
  assert (String.prefix "" d = true) as -> by (by destruct d).
  done.
Qed.

#[local] Arguments String.prefix : simpl never.

Lemma split_from_length k sep s : 1 ≤ length (split_from k sep s).
Proof.
  revert k. induction s as [|c s IH]; intros k; simpl; [done|].
  destruct k; [|apply IH].
  destruct (String.prefix sep (String c s)); simpl; [lia|].
  destruct (split_from 0 sep s); simpl; lia.
Qed.

Lemma split_absent s sep : includes s sep = false → split s sep = [s].
Proof.
  unfold split. induction s as [|c s IH]; simpl; [done|].
  intros [Hp Hi]%orb_false_elim. rewrite Hp.
  by rewrite (IH Hi).
Qed.

Lemma split_present s sep :
  sep ≠ "" → includes s sep = true → 2 ≤ length (split s sep).
Proof.
  intros Hsep. unfold split. induction s as [|c s IH]; simpl.
  - destruct sep; [done|]. by rewrite orb_false_r.
  - intros Hi. destruct (String.prefix sep (String c s)) eqn:Hp; simpl.
    + pose proof (split_from_length (String.length sep - 1) sep s). lia.
    + simpl in Hi.
      specialize (IH Hi). destruct (split_from 0 sep s); simpl in *; lia.
Qed.

(** Index 1 of the split is defined exactly when the separator occurs. *)
Lemma split_second s sep :
  sep ≠ "" → is_Some (split s sep !! 1) ↔ includes s sep = true.
Proof.
  intros Hsep. rewrite lookup_lt_is_Some. split.
  - destruct (includes s sep) eqn:Hi; [done|].
    rewrite (split_absent _ _ Hi). simpl. lia.
  - intros Hi. pose proof (split_present s sep Hsep Hi). lia.
Qed.

(** The text that follows [base64://] is index 1 of the split when it
    holds no further [://]. *)
Lemma split_base64_remainder d :
  includes d "://" = false → split ("base64://" +:+ d) "://" !! 1 = Some d.
Proof.
  intros Hi. rewrite split_base64. by rewrite (split_absent _ _ Hi).
Qed.
End SplitFacts.

(** ** Classification of animated images *)

Section Gif.
Context `{Host}.

(** What a run of [isGif] amounts to. *)
Lemma isGif_run url s :
  isGif (Some url) s =
    if JsString.endsWith (JsString.toLowerCase url) ".gif" then mkRun [] (Ok true) s
    else match URL_protocol url with
         | None => mkRun [] (Throw (TypeError "new URL")) s
         | Some p =>
             let data :=
               if String.eqb p "base64:" then JsString.split url "://" !! 1
               else if String.eqb p "data:" then JsString.split url "base64," !! 1
               else None in
             match data with
             | Some d =>
                 if String.eqb d "" then mkRun [] (Ok false) s
                 else
                   let s1 := with_trace (λ t, t ++ [Sniff (base64_decode d)]) s in
                   match fromBuffer (base64_decode d) with
                   | Some ext => mkRun [s1] (Ok (String.eqb ext "gif")) s1
                   | None =>
                       let s2 := with_trace (λ t, t ++ [Warn "Can not infer file mime"]) s1 in
                       mkRun [s1; s2] (Ok false) s2
                   end
             | None => mkRun [] (Ok false) s
             end
         end.
Proof.
  unfold isGif. destruct (JsString.endsWith _ _); [done|].
  unfold new_URL_protocol. destruct (URL_protocol url) as [p|]; [|done].
  rewrite run_bind. simpl.
  set (data := if String.eqb p "base64:" then _ else _).
  destruct data as [d|]; simpl; [|done].
  destruct (String.eqb d ""); simpl; [done|].
  run_unfold. unfold sniff. run_unfold.
  destruct (fromBuffer (base64_decode d)) as [ext|]; simpl; [|done].
  by destruct (String.eqb ext "gif").
Qed.

(** C5.  [isGif] answers [true] exactly when the text of the reference ends
    in [.gif], whatever the case of its letters, or the reference is an
    inline-base64 or data reference whose decoded bytes sniff as gif.  In
    particular an inline-base64 reference whose bytes sniff as png is not
    animated, and a reference of any other scheme that lacks the suffix is
    not animated, and is answered without any sniff, warning or other
    action. *)
Theorem isGif_classifies url s :
  (outcome (isGif (Some url) s) = Ok true ↔
     JsString.endsWith (JsString.toLowerCase url) ".gif" = true ∨ sniffs_as_gif url)
  ∧ (∀ d, JsString.endsWith (JsString.toLowerCase url) ".gif" = false →
          URL_protocol url = Some "base64:" →
          JsString.split url "://" !! 1 = Some d →
          fromBuffer (base64_decode d) = Some "png" →
          outcome (isGif (Some url) s) = Ok false)
  ∧ (∀ p, JsString.endsWith (JsString.toLowerCase url) ".gif" = false →
          URL_protocol url = Some p → p ≠ "base64:" → p ≠ "data:" →
          isGif (Some url) s = mkRun [] (Ok false) s).
Proof.
  rewrite isGif_run. split_and!.
  - destruct (JsString.endsWith _ _) eqn:Hsuf; [naive_solver|].
    split.
    + intros Hrun. right.
      destruct (URL_protocol url) as [p|] eqn:Hp; [|done]. simpl in Hrun.
      destruct (String.eqb_spec p "base64:") as [->|Hb].
      * destruct (JsString.split url "://" !! 1) as [d|] eqn:Hd; [|done].
        destruct (String.eqb_spec d "") as [->|Hne]; [done|].
        destruct (fromBuffer (base64_decode d)) as [ext|] eqn:Hs; [|done].
        simpl in Hrun. injection Hrun as Hext. apply String.eqb_eq in Hext as ->.
        exists d. auto.
      * destruct (String.eqb_spec p "data:") as [->|Hd']; [|done].
        destruct (JsString.split url "base64," !! 1) as [d|] eqn:Hd; [|done].
        destruct (String.eqb_spec d "") as [->|Hne]; [done|].
        destruct (fromBuffer (base64_decode d)) as [ext|] eqn:Hs; [|done].
        simpl in Hrun. injection Hrun as Hext. apply String.eqb_eq in Hext as ->.
        exists d. auto.
    + assert (∀ d, fromBuffer (base64_decode d) = Some "gif" →
                String.eqb d "" = false) as Hne.
      { intros d Hs. apply String.eqb_neq. intros ->.
        by rewrite base64_decode_empty, fromBuffer_empty in Hs. }
      intros [?|(d & Hs & [[-> Hd]|[-> Hd]])]; [done|..]; simpl;
        rewrite Hd, (Hne d Hs); by rewrite Hs.
  - intros d -> -> Hd Hs. simpl. rewrite Hd, Hs.
    by destruct (String.eqb d "").
  - intros p -> -> Hb Hd. simpl.
    by apply String.eqb_neq in Hb as ->; apply String.eqb_neq in Hd as ->.
Qed.
End Gif.

Lemma isGif_classifies_witness :
  let h := RefHost.host RefHost.accept_all (λ _, []) in
  let s := @new_Sender h "chat" in
  outcome (@isGif h (Some "base64://iVBORw0KGgo=") s) = Ok false
  ∧ @isGif h (Some "https://x/y.png") s = mkRun [] (Ok false) s.
Proof.
  intros h s. split.
  - apply (proj1 (proj2 (@isGif_classifies h "base64://iVBORw0KGgo=" s))
             "iVBORw0KGgo="); reflexivity.
  - apply (proj2 (proj2 (@isGif_classifies h "https://x/y.png" s)) "https:");
      [reflexivity | reflexivity | discriminate | discriminate].
Defined.

(** ** Resolution of attachment references *)

Section Resolve.

Context `{Host}.

(** What a run of [maybeFile] amounts to. *)
Lemma maybeFile_run field s :
  maybeFile field s =
    match Dict.get (payload s) (key_of field) with
    | None => mkRun [] (Ok (None, None, None)) s
    | Some url =>
        if String.eqb url "" then mkRun [] (Ok (None, None, None)) s else
        match URL_protocol url with
        | None => mkRun [] (Throw (TypeError "new URL")) s
        | Some p =>
            if String.eqb p "file:" then
              match fileURLToPath url with
              | Some path =>
                  let s1 := with_trace (λ t, t ++ [OpenStream path]) s in
                  let s2 := with_payload (λ d, Dict.del d (key_of field)) s1 in
                  mkRun [s1; s2] (Ok (field, Some (ReadStream path), Some "file")) s2
              | None => mkRun [] (Throw (TypeError "fileURLToPath")) s
              end
            else if String.eqb p "base64:" then
              inline_or_throw field (JsString.split url "://" !! 1) s
            else if String.eqb p "data:" then
              inline_or_throw field (JsString.split url "base64," !! 1) s
            else mkRun [] (Ok (field, None, Some "file")) s
        end
    end.
Proof.
  unfold maybeFile. rewrite run_bind. simpl.
  destruct (Dict.get (payload s) (key_of field)) as [url|]; [|done].
  destruct (String.eqb url ""); [done|].
  unfold new_URL_protocol. destruct (URL_protocol url) as [p|]; [|done].
  rewrite run_bind. simpl.
  destruct (String.eqb_spec p "file:") as [->|Hf].
  { unfold open_file. destruct (fileURLToPath url) as [path|]; [|done].
    rewrite andb_false_r. by run_unfold. }
  destruct (String.eqb_spec p "base64:") as [->|Hb].
  { rewrite andb_true_r. unfold inline_or_throw, inline_run, Buffer_from.
    destruct (JsString.split url "://" !! 1) as [d|]; [|done].
    case_bool_decide; run_unfold; [|done]. unfold sniff. run_unfold.
    by destruct (fromBuffer (base64_decode d)). }
  destruct (String.eqb_spec p "data:") as [->|Hd].
  { rewrite andb_true_r. unfold inline_or_throw, inline_run, Buffer_from.
    destruct (JsString.split url "base64," !! 1) as [d|]; [|done].
    case_bool_decide; run_unfold; [|done]. unfold sniff. run_unfold.
    by destruct (fromBuffer (base64_decode d)). }
  rewrite andb_false_r. by run_unfold.
Qed.

(** C6.  [maybeFile] returns all-undefined, and does nothing, when the slot
    holds no reference (absent, [undefined] or empty).  Otherwise the
    scheme decides: a [file:] reference yields a read stream on the local
    path; a [base64:] reference yields the decoding of the text [d] that
    follows [://] (the whole remainder of [base64://d], by
    [split_base64_remainder]); a [data:] reference that contains [base64,] yields the
    decoding of the segment that follows the marker; in these three cases the
    slot is deleted from the payload.  Any other scheme yields no content
    and leaves the payload as it is, so that the reference stays in the
    slot as a plain string. *)
Theorem maybeFile_triage field s :
  (JsString.truthy (Dict.get (payload s) (key_of field)) = false →
     maybeFile field s = mkRun [] (Ok (None, None, None)) s)
  ∧ ∀ url, Dict.get (payload s) (key_of field) = Some url → url ≠ "" →
      let r := maybeFile field s in
      (∀ path, URL_protocol url = Some "file:" → fileURLToPath url = Some path →
         outcome r = Ok (field, Some (ReadStream path), Some "file")
         ∧ trace (final r) = trace s ++ [OpenStream path]
         ∧ payload (final r) = Dict.del (payload s) (key_of field))
      ∧ (∀ d, URL_protocol url = Some "base64:" →
           JsString.split url "://" !! 1 = Some d →
           ∃ fn, outcome r = Ok (field, Some (Buffer (base64_decode d)), Some fn)
                 ∧ payload (final r) = Dict.del (payload s) (key_of field))
      ∧ (URL_protocol url = Some "data:" →
           JsString.includes url "base64," = true →
           ∃ d fn, JsString.split url "base64," !! 1 = Some d
                 ∧ outcome r = Ok (field, Some (Buffer (base64_decode d)), Some fn)
                 ∧ payload (final r) = Dict.del (payload s) (key_of field))
      ∧ (∀ p, URL_protocol url = Some p →
           p ≠ "file:" → p ≠ "base64:" → p ≠ "data:" →
           r = mkRun [] (Ok (field, None, Some "file")) s
           ∧ Dict.get (payload (final r)) (key_of field) = Some url).
Proof.
  assert (Hinline : ∀ d, ∃ fn,
    outcome (inline_run field (base64_decode d) s)
      = Ok (field, Some (Buffer (base64_decode d)), Some fn)
    ∧ payload (final (inline_run field (base64_decode d) s))
      = Dict.del (payload s) (key_of field)).
  { intros d. unfold inline_run. case_bool_decide; [|by eexists].
    destruct (fromBuffer (base64_decode d)); by eexists. }
  rewrite maybeFile_run. split.
  - destruct (Dict.get (payload s) (key_of field)) as [url|]; [|done].
    simpl. by intros ->%negb_false_iff.
  - intros url Hget Hne%String.eqb_neq. cbv zeta. rewrite Hget, Hne. split_and!.
    + by intros path -> ->.
    + intros d -> Hd. simpl. rewrite Hd. apply Hinline.
    + intros -> [d Hd]%SplitFacts.split_second; [|done]. simpl.
      rewrite Hd. destruct (Hinline d) as (fn & ? & ?). by exists d, fn.
    + intros p -> Hf%String.eqb_neq Hb%String.eqb_neq Hd%String.eqb_neq.
      by rewrite Hf, Hb, Hd.
Qed.

(** C8.  The filename is ["file"] unless the slot is [document] and the
    scheme is [base64:] or [data:]: only then are the decoded bytes sniffed,
    and the filename is ["file."] followed by the extension found.  When the
    sniff finds nothing the resolution still returns, with the filename
    ["file"], and what is observed is the sniff and one warning. *)
Theorem maybeFile_filename field s url p :
  Dict.get (payload s) (key_of field) = Some url → url ≠ "" →
  URL_protocol url = Some p →
  let r := maybeFile field s in
  (¬ (field = Some document ∧ (p = "base64:" ∨ p = "data:")) →
     ∀ f c fn, outcome r = Ok (f, c, fn) →
       fn = Some "file" ∧ ∀ b, Sniff b ∈ trace (final r) → Sniff b ∈ trace s)
  ∧ (field = Some document →
     ∀ d, (p = "base64:" ∧ JsString.split url "://" !! 1 = Some d)
          ∨ (p = "data:" ∧ JsString.split url "base64," !! 1 = Some d) →
       let b := base64_decode d in
       outcome r =
         Ok (field, Some (Buffer b),
             Some (match fromBuffer b with
                   | Some ext => "file." +:+ ext
                   | None => "file"
                   end))
       ∧ trace (final r) =
           trace s ++ Sniff b ::
             match fromBuffer b with
             | Some _ => []
             | None => [Warn "Can not infer file mime"]
             end).
Proof.
  intros Hget Hne%String.eqb_neq Hp r. subst r.
  rewrite maybeFile_run, Hget, Hne, Hp. split.
  - intros Hnot f c fn.
    destruct (String.eqb_spec p "file:") as [->|Hf].
    { destruct (fileURLToPath url); simpl; [|done].
      intros [= <- <- <-]. split; [done|].
      intros b [?|Hin%list_elem_of_singleton]%elem_of_app; done. }
    assert (∀ data, outcome (inline_or_throw field data s) = Ok (f, c, fn) →
              field ≠ Some document →
              fn = Some "file"
              ∧ ∀ b, Sniff b ∈ trace (final (inline_or_throw field data s)) →
                     Sniff b ∈ trace s) as Hinline.
    { intros [d|]; [|done]. unfold inline_or_throw, inline_run.
      intros Hrun Hdoc. rewrite bool_decide_eq_false_2 in * by done.
      simpl in *. by injection Hrun as <- <- <-. }
    destruct (String.eqb_spec p "base64:") as [->|Hb].
    { intros Hrun. eapply Hinline; [exact Hrun|]. intros ?. apply Hnot. auto. }
    destruct (String.eqb_spec p "data:") as [->|Hd].
    { intros Hrun. eapply Hinline; [exact Hrun|]. intros ?. apply Hnot. auto. }
    simpl. by intros [= <- <- <-].
  - intros -> d [[-> Hd]|[-> Hd]]; simpl; rewrite Hd;
      unfold inline_or_throw, inline_run;
      rewrite bool_decide_eq_true_2 by done;
      destruct (fromBuffer (base64_decode d)); simpl;
      by rewrite <- ?app_assoc.
Qed.
End Resolve.

Lemma maybeFile_triage_witness :
  let h := RefHost.host RefHost.accept_all (λ _, []) in
  let s := with_payload (λ d, Dict.set d "photo" (Some "base64://R0lGODlh"))
             (@new_Sender h "chat") in
  ∃ fn, outcome (@maybeFile h (Some photo) s)
        = Ok (Some photo, Some (Buffer [x47; x49; x46; x38; x39; x61]), Some fn)
      ∧ payload (final (@maybeFile h (Some photo) s))
        = [("chat_id", Some "chat"); ("caption", Some "")].
Proof.
  intros h s.
  apply (proj1 (proj2 (proj2 (@maybeFile_triage h (Some photo) s)
                         "base64://R0lGODlh" eq_refl ltac:(discriminate)))
           "R0lGODlh"); reflexivity.
Defined.

Lemma maybeFile_filename_witness :
  let h := RefHost.host RefHost.accept_all (λ _, []) in
  let s := with_payload (λ d, Dict.set d "document" (Some "base64://QUJD"))
             (@new_Sender h "chat") in
  outcome (@maybeFile h (Some document) s)
    = Ok (Some document, Some (Buffer [x41; x42; x43]), Some "file")
  ∧ trace (final (@maybeFile h (Some document) s))
    = [Sniff [x41; x42; x43]; Warn "Can not infer file mime"].
Proof.
  intros h s.
  apply (proj2 (@maybeFile_filename h (Some document) s "base64://QUJD"
                  "base64:" eq_refl ltac:(discriminate) eq_refl)
           eq_refl "QUJD").
  left. split; reflexivity.
Defined.

(** ** A program logic for the methods *)

Section Logic.
Context `{Host}.
Context (I : Sender → Prop).

Lemma hoare_ret {A} (P : Sender → Prop) (a : A) : hoare I P (mret a) (λ a' s, a' = a ∧ P s).
Proof. intros s HI HP. simpl. split_and!; [done..|]. by intros a' [= <-]. Qed.

Lemma hoare_throw {A} (P : Sender → Prop) e (Q : A → Sender → Prop) :
  hoare I P (throw e) Q.
Proof. intros s HI HP. by simpl. Qed.

Lemma hoare_get (P : Sender → Prop) : hoare I P get (λ a s, a = s ∧ P s).
Proof. intros s HI HP. simpl. split_and!; [done..|]. by intros a' [= <-]. Qed.

Lemma hoare_modify (P Q : Sender → Prop) f :
  (∀ s, I s → P s → I (f s) ∧ Q (f s)) → hoare I P (modify f) (λ _, Q).
Proof.
  intros Hf s HI HP. destruct (Hf s HI HP). simpl.
  split_and!; [by constructor|done..].
Qed.

Lemma hoare_bind {A B} (P : Sender → Prop) (m : M A) (Q : A → Sender → Prop)
    (f : A → M B) (R : B → Sender → Prop) :
  hoare I P m Q → (∀ a, hoare I (Q a) (f a) R) → hoare I P (m ≫= f) R.
Proof.
  intros Hm Hf s HI HP. destruct (Hm s HI HP) as (Hseen & Hfin & Hpost).
  rewrite run_bind. destruct (outcome (m s)) as [a|e]; simpl; [|done].
  destruct (Hf a (final (m s)) Hfin (Hpost a eq_refl)) as (Hseen' & Hfin' & Hpost').
  split_and!; [by apply Forall_app|done..].
Qed.

Lemma hoare_conseq {A} (P P' : Sender → Prop) (m : M A) (Q Q' : A → Sender → Prop) :
  hoare I P' m Q' → (∀ s, I s → P s → P' s) → (∀ a s, I s → Q' a s → Q a s) →
  hoare I P m Q.
Proof.
  intros Hm Hpre Hpost s HI HP.
  destruct (Hm s HI (Hpre s HI HP)) as (? & ? & Hq). split_and!; [done..|].
  intros a Ha. by apply Hpost, Hq.
Qed.

Lemma hoare_pre {A} (P P' : Sender → Prop) (m : M A) (Q : A → Sender → Prop) :
  hoare I P' m Q → (∀ s, I s → P s → P' s) → hoare I P m Q.
Proof. intros Hm Hpre. by eapply hoare_conseq. Qed.

Lemma hoare_bind_get {B} (P : Sender → Prop) (f : Sender → M B) (R : B → Sender → Prop) :
  (∀ s0, hoare I (λ s, s = s0 ∧ P s) (f s0) R) → hoare I P (get ≫= f) R.
Proof.
  intros Hf. eapply hoare_bind; [apply hoare_get|].
  intros s0. eapply hoare_conseq; [apply (Hf s0)| |done].
  by intros s _ [-> ?].
Qed.

Lemma hoare_ret_post {A} (P : Sender → Prop) (a : A) (Q : A → Sender → Prop) :
  (∀ s, I s → P s → Q a s) → hoare I P (mret a) Q.
Proof.
  intros HQ. eapply (hoare_conseq P P); [apply hoare_ret|done|].
  intros a' s HI [-> HP]. by apply HQ.
Qed.

Lemma hoare_pure {A} (P : Sender → Prop) (m : M A) :
  (∀ s, seen (m s) = [] ∧ final (m s) = s) → hoare I P m (λ _, P).
Proof. intros Hm s HI HP. destruct (Hm s) as [-> ->]. by split_and!. Qed.
End Logic.

(** ** At most one attachment slot *)

Section Slots.
Context `{Host}.

Lemma occupied_nil s : occupied s = [] ↔ ∀ t, Dict.has (payload s) (slot t) = false.
Proof.
  unfold occupied, all_slots. simpl. split.
  - intros Hnil t.
    destruct (Dict.has _ "photo") eqn:?, (Dict.has _ "audio") eqn:?,
      (Dict.has _ "document") eqn:?, (Dict.has _ "video") eqn:?,
      (Dict.has _ "animation") eqn:?; try discriminate Hnil.
    by destruct t.
  - intros Hall.
    pose proof (Hall photo) as Hp. pose proof (Hall audio) as Ha.
    pose proof (Hall document) as Hd. pose proof (Hall video) as Hv.
    pose proof (Hall animation) as Hn. simpl in *.
    by rewrite Hp, Ha, Hd, Hv, Hn.
Qed.

Lemma slots_ok_at_most_one s : slots_ok s → at_most_one s.
Proof.
  unfold slots_ok, at_most_one, occupied, all_slots. simpl. intros Hok.
  pose proof (Hok photo) as Hp. pose proof (Hok audio) as Ha.
  pose proof (Hok document) as Hd. pose proof (Hok video) as Hv.
  pose proof (Hok animation) as Hn. simpl in *.
  destruct (Dict.has _ "photo"), (Dict.has _ "audio"),
    (Dict.has _ "document"), (Dict.has _ "video"),
    (Dict.has _ "animation"); simpl; try lia;
    repeat match goal with
           | H : true = true → _ |- _ => specialize (H eq_refl)
           end; congruence.
Qed.

Lemma idle_slots_ok s : idle s → slots_ok s.
Proof. intros [_ Hnil] t Ht. rewrite occupied_nil in Hnil. by rewrite Hnil in Ht. Qed.
End Slots.

Section Invariant.
Context `{Host}.

Lemma render_node_eq e : render_node e = render_body render e.
Proof. by destruct e. Qed.

Lemma segment_nested_ind (P : segment → Prop) :
  (∀ type attrs children, Forall P children → P (Segment type attrs children)) →
  ∀ e, P e.
Proof.
  intros Hrec. fix IH 1. intros [type attrs children]. apply Hrec.
  induction children as [|e children IHc]; constructor; [apply IH|apply IHc].
Qed.

Lemma shrinks_refl s : shrinks s s.
Proof. by split. Qed.

Lemma shrinks_trace s f : shrinks s (with_trace f s).
Proof. by split. Qed.

Lemma shrinks_delete s s' k :
  shrinks s s' → shrinks s (with_payload (λ d, Dict.del d k) s').
Proof.
  intros [Ht Hk]. split; [done|]. intros k'. simpl.
  rewrite DictFacts.has_del. intros [_ ?]%andb_prop. by apply Hk.
Qed.

Lemma shrinks_trace_after s s' f : shrinks s s' → shrinks s (with_trace f s').
Proof. by intros [Ht Hk]. Qed.

Lemma shrinks_slots_ok s s' : shrinks s s' → slots_ok s → slots_ok s'.
Proof. intros [Ht Hk] Hok t Hin. rewrite Ht. by apply Hok, Hk. Qed.

Lemma shrinks_idle s s' : shrinks s s' → idle s → idle s'.
Proof.
  intros [Ht Hk] [Hnone Hnil]. split; [congruence|].
  rewrite occupied_nil in *. intros t.
  destruct (Dict.has (payload s') (slot t)) eqn:E; [|done].
  by rewrite <- (Hnil t), (Hk _ E).
Qed.

Create HintDb shrinks.
Local Hint Resolve shrinks_refl shrinks_trace shrinks_delete
  shrinks_trace_after : shrinks.

Lemma maybeFile_shrinks field s :
  Forall (shrinks s) (final (maybeFile field s) :: seen (maybeFile field s)).
Proof.
  rewrite maybeFile_run. unfold inline_or_throw, inline_run.
  repeat case_match; simpl;
    repeat first [apply Forall_nil_2 | apply Forall_cons_2];
    auto 6 with shrinks.
Qed.

Lemma isGif_shrinks url s :
  Forall (shrinks s) (final (isGif url s) :: seen (isGif url s)).
Proof.
  destruct url as [url|]; [|repeat constructor; apply shrinks_refl].
  rewrite isGif_run. cbv zeta.
  repeat case_match; simpl;
    repeat first [apply Forall_nil_2 | apply Forall_cons_2];
    auto 6 with shrinks.
Qed.

Lemma hoare_shrinks {A} (P : Sender → Prop) (m : M A) :
  (∀ s, Forall (shrinks s) (final (m s) :: seen (m s))) →
  (∀ s s', shrinks s s' → P s → P s') →
  hoare slots_ok P m (λ _, P).
Proof.
  intros Hm HP s HI Hs. specialize (Hm s).
  apply Forall_cons in Hm as [Hfin Hseen]. split_and!.
  - eapply Forall_impl; [exact Hseen|]. intros s' ?. by eapply shrinks_slots_ok.
  - by eapply shrinks_slots_ok.
  - intros _ _. by eapply HP.
Qed.
End Invariant.

Section Flush.
Context `{Host}.

Lemma append_fields_pure d ks s :
  seen (append_fields d ks s) = [] ∧ final (append_fields d ks s) = s.
Proof.
  induction ks as [|k ks IH]; simpl; [done|].
  destruct (Dict.get d k); [|done].
  unfold mbind, M_bind, bind.
  destruct (append_fields d ks s) as [sn [a|e] fn]; simpl in *;
    destruct IH as [-> ->]; done.
Qed.

Lemma call_api_run c s :
  call_api c s =
    let s' := with_trace (λ t, t ++ [ApiCall c]) s in
    match internal (trace s) c with
    | Ok msg => mkRun [s'] (Ok msg) s'
    | Throw e => mkRun [s'] (Throw e) s'
    end.
Proof. unfold call_api. run_unfold. by destruct (internal _ _). Qed.

Lemma slot_inj t t' : slot t = slot t' → t = t'.
Proof. by destruct t, t'. Qed.

Lemma occupied_delete_slot s t :
  slots_ok s → assetType s = Some t →
  occupied (with_payload (λ d, Dict.del d (slot t)) s) = [].
Proof.
  intros Hok Ht. apply occupied_nil. intros t'. simpl.
  rewrite DictFacts.has_del.
  destruct (String.eqb_spec (slot t) (slot t')) as [|Hne]; [done|]. simpl.
  destruct (Dict.has (payload s) (slot t')) eqn:E; [|done].
  apply Hok in E. destruct Hne. congruence.
Qed.

Lemma slots_ok_idle_like s :
  occupied s = [] → slots_ok s.
Proof. intros Hnil t Ht. rewrite occupied_nil in Hnil. by rewrite Hnil in Ht. Qed.

Lemma sendAsset_idle :
  hoare slots_ok (λ s, is_Some (assetType s)) sendAsset (λ _, idle).
Proof.
  unfold sendAsset. apply hoare_bind_get. intros s0.
  eapply hoare_bind.
  { eapply hoare_pre.
    - apply (hoare_shrinks
               (λ s, assetType s = assetType s0 ∧ is_Some (assetType s0))).
      + apply maybeFile_shrinks.
      + intros s s' [Ht _] [? ?]. split; congruence.
    - by intros s _ [-> ?]. }
  intros [[field content] filename].
  apply hoare_bind_get. intros s1.
  eapply hoare_bind.
  { eapply hoare_pre.
    - apply (hoare_pure _
               (λ s, assetType s = assetType s0 ∧ is_Some (assetType s0))).
      apply append_fields_pure.
    - by intros s _ [_ ?]. }
  intros form. simpl.
  eapply hoare_bind with (Q := λ _ s, assetType s = assetType s0 ∧ is_Some (assetType s0)).
  { intros s HI [Ht [t Hs]]. rewrite Hs.
    rewrite call_api_run. cbv zeta.
    destruct (internal _ _); simpl; split_and!;
      try (by apply Forall_singleton); try done.
    intros _ _. split; [congruence|by eexists]. }
  intros msg.
  eapply hoare_bind with (Q := λ _ s, assetType s = assetType s0 ∧ is_Some (assetType s0)).
  { by apply hoare_modify. }
  intros _.
  eapply hoare_bind with (Q := λ _ s, occupied s = []).
  { apply hoare_modify. intros s HI [Ht [t Hs]]. rewrite Hs. simpl.
    assert (occupied (with_payload (λ d, Dict.del d (slot t)) s) = []) as Hnil
      by (apply occupied_delete_slot; [done|congruence]).
    split; [by apply slots_ok_idle_like|done]. }
  intros _.
  eapply hoare_bind with (Q := λ _ s, occupied s = []).
  { apply hoare_modify. intros s HI Hnil.
    assert (occupied (with_payload (λ d, Dict.del d "reply_to_message") s) = []) as Hnil'.
    { unfold occupied in *. simpl. by rewrite !DictFacts.has_del. }
    split; [by apply slots_ok_idle_like|done]. }
  intros _.
  eapply hoare_bind with (Q := λ _, idle).
  { apply hoare_modify. intros s HI Hnil. split; [by apply slots_ok_idle_like|done]. }
  intros _.
  apply hoare_modify. intros s HI [Hnone Hnil].
  assert (occupied (with_payload (λ d, Dict.set d "caption" (Some "")) s) = []) as Hnil'.
  { unfold occupied in *. simpl. by rewrite !DictFacts.has_set. }
  split; [by apply slots_ok_idle_like|done].
Qed.
End Flush.

Section Walk.
Context `{Host}.

Lemma slots_ok_none_idle s : slots_ok s → assetType s = None → idle s.
Proof.
  intros Hok Hnone. split; [done|]. apply occupied_nil. intros t.
  destruct (Dict.has (payload s) (slot t)) eqn:E; [|done].
  apply Hok in E. congruence.
Qed.

Lemma idle_set_other s k v :
  (∀ t, String.eqb k (slot t) = false) → idle s →
  idle (with_payload (λ d, Dict.set d k v) s).
Proof.
  intros Hk [Hnone Hnil]. split; [done|]. rewrite occupied_nil in *.
  intros t. simpl. by rewrite DictFacts.has_set, Hk, Hnil.
Qed.

Lemma idle_delete s k : idle s → idle (with_payload (λ d, Dict.del d k) s).
Proof.
  intros [Hnone Hnil]. split; [done|]. rewrite occupied_nil in *.
  intros t. simpl. by rewrite DictFacts.has_del, Hnil, andb_false_r.
Qed.

Lemma slots_ok_set_other s k v :
  (∀ t, String.eqb k (slot t) = false) → slots_ok s →
  slots_ok (with_payload (λ d, Dict.set d k v) s).
Proof.
  intros Hk Hok t. simpl. rewrite DictFacts.has_set, Hk. apply Hok.
Qed.

Lemma hoare_set_other k v :
  (∀ t, String.eqb k (slot t) = false) →
  hoare slots_ok (λ _, True) (payload_set k v) (λ _ _, True).
Proof.
  intros Hk. apply hoare_modify. intros s HI _.
  split; [by apply slots_ok_set_other|done].
Qed.

Lemma sendBuffer_idle : hoare slots_ok (λ _, True) sendBuffer (λ _, idle).
Proof.
  unfold sendBuffer. apply hoare_bind_get. intros s0. case_bool_decide as Hs.
  { eapply hoare_pre; [apply sendAsset_idle|]. by intros s _ [-> _]. }
  assert (assetType s0 = None) as Hnone.
  { destruct (assetType s0); [|done]. destruct Hs. by eexists. }
  eapply hoare_pre with (P' := idle);
    [|intros s HI [-> _]; by apply slots_ok_none_idle].
  destruct (JsString.truthy _).
  - eapply hoare_bind with (Q := λ _, idle).
    { intros s HI Hidle. rewrite call_api_run. cbv zeta.
      destruct (internal _ _); simpl; split_and!;
        try (by apply Forall_singleton); done. }
    intros msg. eapply hoare_bind with (Q := λ _, idle).
    { by apply hoare_modify. }
    intros _. eapply hoare_bind with (Q := λ _, idle).
    { apply hoare_modify. intros s HI Hidle.
      pose proof (idle_delete s "reply_to_message" Hidle).
      split; [by apply idle_slots_ok|done]. }
    intros _. apply hoare_modify. intros s HI Hidle.
    pose proof (idle_set_other s "caption" (Some "") ltac:(by intros []) Hidle).
    split; [by apply idle_slots_ok|done].
  - by apply hoare_ret_post.
Qed.

Lemma caption_append_slots text :
  hoare slots_ok (λ _, True) (caption_append text) (λ _ _, True).
Proof.
  unfold caption_append. apply hoare_bind_get. intros s0.
  eapply hoare_pre; [apply hoare_set_other|done]. by intros [].
Qed.

Lemma occupy_slots (classify : M AssetType) url :
  (∀ s, Forall (shrinks s) (final (classify s) :: seen (classify s))) →
  hoare slots_ok idle
    (t ← classify; modify (with_assetType (Some t));; payload_set (slot t) url)
    (λ _ _, True).
Proof.
  intros Hc. eapply hoare_bind.
  { apply (hoare_shrinks idle); [done|]. intros s s'. apply shrinks_idle. }
  intros t. eapply hoare_bind with (Q := λ _ s, assetType s = Some t ∧ occupied s = []).
  { apply hoare_modify. intros s HI [Hnone Hnil].
    split; [by apply slots_ok_idle_like|done]. }
  intros _. apply hoare_modify. intros s HI [Ht Hnil]. split; [|done].
  intros t'. simpl. rewrite DictFacts.has_set. rewrite occupied_nil in Hnil.
  rewrite Hnil, orb_false_r. intros E%String.eqb_eq%slot_inj. congruence.
Qed.

Lemma pure_shrinks {A} (a : A) s :
  Forall (shrinks s) (final (mret (M := M) a s) :: seen (mret (M := M) a s)).
Proof. apply Forall_singleton, shrinks_refl. Qed.

Lemma render_list_slots elements :
  Forall (λ e, hoare slots_ok (λ _, True) (render_node e) (λ _ _, True)) elements →
  hoare slots_ok (λ _, True) (render elements) (λ _ _, True).
Proof.
  intros Hall. induction Hall as [|e els He Hes IH]; simpl.
  - by apply hoare_ret_post.
  - eapply hoare_bind; [exact He|]. intros ?. exact IH.
Qed.

Lemma render_node_slots e :
  hoare slots_ok (λ _, True) (render_node e) (λ _ _, True).
Proof.
  induction e as [type attrs children IH] using segment_nested_ind.
  apply render_list_slots in IH.
  rewrite render_node_eq. unfold render_body.
  assert (∀ k : M unit, hoare slots_ok idle k (λ _ _, True) →
            hoare slots_ok (λ _, True) (sendBuffer ;; k) (λ _ _, True)) as Hflush.
  { intros k Hk. eapply hoare_bind; [apply sendBuffer_idle|]. by intros ?. }
  assert (∀ k v, (∀ t, String.eqb k (slot t) = false) →
            hoare slots_ok idle (payload_set k v) (λ _ _, True)) as Hset.
  { intros k v Hk. eapply hoare_pre; [by apply hoare_set_other|done]. }
  repeat case_match; try apply caption_append_slots;
    try (by apply hoare_ret_post); try done;
    apply Hflush; try (apply Hset; by intros []).
  - apply occupy_slots. intros s. rewrite run_bind.
    pose proof (isGif_shrinks (attrs !! "url") s) as Hg.
    apply Forall_cons in Hg as [Hf Hs].
    destruct (outcome _); simpl; rewrite ?app_nil_r; by constructor.
  - apply occupy_slots. intros s. apply pure_shrinks.
  - apply occupy_slots. intros s. apply pure_shrinks.
  - eapply hoare_pre with (P' := λ _, True); [|done].
    eapply hoare_bind; [exact IH|]. intros ?.
    eapply hoare_conseq; [apply sendBuffer_idle|done..].
Qed.

(** C9.  From a state in which a slot is occupied only if it is the one
    [assetType] names, every state a render goes through, and the state it
    ends in, normally or by a throw, has at most one attachment slot
    occupied; the same holds with the last flush of [sendMessage].  The
    mechanism: a flush that returns leaves no slot occupied, and the media
    branch occupies its slot only after such a flush. *)
Theorem at_most_one_slot elements s :
  slots_ok s →
  (Forall at_most_one (seen (render elements s))
   ∧ at_most_one (final (render elements s)))
  ∧ (Forall at_most_one (seen (sendMessage elements s))
     ∧ at_most_one (final (sendMessage elements s)))
  ∧ (outcome (sendBuffer s) = Ok () → occupied (final (sendBuffer s)) = []).
Proof.
  intros Hok.
  assert (hoare slots_ok (λ _, True) (render elements) (λ _ _, True)) as Hr.
  { apply render_list_slots, Forall_forall. intros e _. apply render_node_slots. }
  assert (hoare slots_ok (λ _, True) (sendMessage elements) (λ _, idle)) as Hm.
  { eapply hoare_bind; [exact Hr|]. intros ?. apply sendBuffer_idle. }
  destruct (Hr s Hok Logic.I) as (Hs1 & Hf1 & _).
  destruct (Hm s Hok Logic.I) as (Hs2 & Hf2 & _).
  destruct (sendBuffer_idle s Hok Logic.I) as (_ & _ & Hpost).
  split_and!.
  - eapply Forall_impl; [exact Hs1|]. apply slots_ok_at_most_one.
  - by apply slots_ok_at_most_one.
  - eapply Forall_impl; [exact Hs2|]. apply slots_ok_at_most_one.
  - by apply slots_ok_at_most_one.
  - intros Hrun. by destruct (Hpost () Hrun).
Qed.
End Walk.

Lemma at_most_one_slot_witness :
  let h := RefHost.host RefHost.accept_all (λ _, []) in
  let elements :=
    [Segment "image" {[ "url" := "https://x/y.png" ]} [];
     Segment "file" {[ "url" := "base64://QUJD" ]} []] in
  Forall (@at_most_one h) (seen (@sendMessage h elements (@new_Sender h "chat")))
  ∧ @at_most_one h (final (@sendMessage h elements (@new_Sender h "chat"))).
Proof.
  intros h elements.
  apply (proj1 (proj2 (@at_most_one_slot h elements (@new_Sender h "chat")
                         ltac:(intros []; discriminate)))).
Defined.

(** ** The nodes of the walk *)

Section Nodes.
Context `{Host}.

Lemma or_else_Some w b :
  JsString.or_else (Some w) b = if String.eqb w "" then b else Some w.
Proof. unfold JsString.or_else. simpl. by destruct (String.eqb w ""). Qed.

(** The chain [a || b || ...] as a test and a value. *)
Lemma or_chain vs (last : option string) :
  match first_nonempty (vs ++ [last]) with
  | Some v =>
      JsString.truthy (foldr JsString.or_else last vs) = true
      ∧ JsString.to_str (foldr JsString.or_else last vs) = v
  | None => JsString.truthy (foldr JsString.or_else last vs) = false
  end.
Proof.
  induction vs as [|[w|] vs IH]; simpl.
  - destruct last as [v|]; simpl; [|done].
    destruct (String.eqb v "") eqn:E; simpl; by rewrite ?E.
  - rewrite or_else_Some. destruct (String.eqb w "") eqn:E; [apply IH|].
    simpl. by rewrite E.
  - apply IH.
Qed.

(** C7.  An [at] node appends ["@<target> "] to the caption, where the
    target is the first of the attributes name, id, role and type that is
    present and not empty, and does nothing when there is none; a [sharp]
    node appends ["#<target> "] with the first of name and id.  In both
    cases nothing is flushed: the only state gone through is the one with
    the longer caption, and the trace, the results and the pending asset
    are as before. *)
Theorem at_sharp_nodes attrs children s :
  render_node (Segment "at" attrs children) s =
    match first_nonempty [attrs !! "name"; attrs !! "id"; attrs !! "role"; attrs !! "type"] with
    | Some target =>
        let s' := appended ("@" +:+ target +:+ " ") s in mkRun [s'] (Ok ()) s'
    | None => mkRun [] (Ok ()) s
    end
  ∧ render_node (Segment "sharp" attrs children) s =
    match first_nonempty [attrs !! "name"; attrs !! "id"] with
    | Some target =>
        let s' := appended ("#" +:+ target +:+ " ") s in mkRun [s'] (Ok ()) s'
    | None => mkRun [] (Ok ()) s
    end
  ∧ (let r := render_node (Segment "at" attrs children) s in
     trace (final r) = trace s ∧ results (final r) = results s
     ∧ assetType (final r) = assetType s)
  ∧ (let r := render_node (Segment "sharp" attrs children) s in
     trace (final r) = trace s ∧ results (final r) = results s
     ∧ assetType (final r) = assetType s).
Proof.
  rewrite !render_node_eq.
  pose proof (or_chain [attrs !! "name"; attrs !! "id"; attrs !! "role"]
                (attrs !! "type")) as Hat.
  pose proof (or_chain [attrs !! "name"] (attrs !! "id")) as Hsharp.
  cbn [foldr app] in Hat, Hsharp.
  split_and!.
  - clear Hsharp. unfold render_body. cbn [String.eqb Ascii.eqb Bool.eqb].
    destruct (first_nonempty _) as [target|].
    + destruct Hat as [Ht Hv]. by rewrite Ht, Hv.
    + by rewrite Hat.
  - clear Hat. unfold render_body. cbn [String.eqb Ascii.eqb Bool.eqb].
    destruct (first_nonempty _) as [target|].
    + destruct Hsharp as [Ht Hv]. by rewrite Ht, Hv.
    + by rewrite Hsharp.
  - clear Hsharp. cbv zeta. unfold render_body.
    cbn [String.eqb Ascii.eqb Bool.eqb].
    destruct (first_nonempty _) as [target|].
    + destruct Hat as [Ht _]. by rewrite Ht.
    + by rewrite Hat.
  - clear Hat. cbv zeta. unfold render_body.
    cbn [String.eqb Ascii.eqb Bool.eqb].
    destruct (first_nonempty _) as [target|].
    + destruct Hsharp as [Ht _]. by rewrite Ht.
    + by rewrite Hsharp.
Qed.

Lemma media_node_run type attrs children :
  type ∈ ["image"; "audio"; "video"; "file"] →
  render_node (Segment type attrs children) =
    (sendBuffer ;;
     t ← (if String.eqb type "image" then
            gif ← isGif (attrs !! "url") ;
            mret (if (gif : bool) then animation else photo)
          else if String.eqb type "file" then mret document
          else mret (slot_of_type type)) ;
     modify (with_assetType (Some t)) ;;
     payload_set (slot t) (attrs !! "url")).
Proof.
  intros Hin. rewrite render_node_eq. unfold render_body.
  rewrite (bool_decide_eq_true_2 _ Hin).
  set_unfold in Hin. destruct Hin as [->|[->|[->|[->|[]]]]]; reflexivity.
Qed.

Lemma isGif_trace url s ev :
  ev ∈ trace (final (isGif url s)) →
  ev ∈ trace s ∨ (∃ b, ev = Sniff b) ∨ (∃ msg, ev = Warn msg).
Proof.
  destruct url as [url|]; [|by left]. rewrite isGif_run. cbv zeta.
  repeat case_match; simpl; rewrite ?elem_of_app, ?list_elem_of_singleton;
    intuition eauto.
Qed.

Lemma isGif_payload url s : payload (final (isGif url s)) = payload s.
Proof.
  destruct url as [url|]; [|done]. rewrite isGif_run. cbv zeta.
  by repeat case_match.
Qed.

(** C4.  A node of type image, audio, video or file first runs the flush:
    the states of [sendBuffer] come first, and when the flush throws
    nothing more happens.  When the flush returns, the slot is occupied:
    for an image, [animation] or [photo] as [isGif] answers, and the
    classification touches no payload field and is observed only through
    sniffs and warnings; [document] for a file; the slot of the same name
    for audio and video.  Occupying stores the [url] attribute as it is in
    the slot and adds nothing to the trace: no stream is opened and no
    bytes are decoded before the next flush. *)
Theorem media_nodes type attrs children s :
  type ∈ ["image"; "audio"; "video"; "file"] →
  let url := attrs !! "url" in
  let r0 := sendBuffer s in
  let r := render_node (Segment type attrs children) s in
  (∃ rest, seen r = seen r0 ++ rest)
  ∧ (∀ e, outcome r0 = Throw e → r = mkRun (seen r0) (Throw e) (final r0))
  ∧ (outcome r0 = Ok () →
       (type = "image" →
          let rg := isGif url (final r0) in
          payload (final rg) = payload (final r0)
          ∧ (∀ ev, ev ∈ trace (final rg) →
               ev ∈ trace (final r0) ∨ (∃ b, ev = Sniff b) ∨ (∃ msg, ev = Warn msg))
          ∧ ∀ gif, outcome rg = Ok gif →
              outcome r = Ok ()
              ∧ final r = occupying (if gif then animation else photo) url (final rg))
       ∧ (type = "file" →
            outcome r = Ok () ∧ final r = occupying document url (final r0))
       ∧ (type = "audio" →
            outcome r = Ok () ∧ final r = occupying audio url (final r0))
       ∧ (type = "video" →
            outcome r = Ok () ∧ final r = occupying video url (final r0)))
  ∧ ∀ t s1, Dict.get (payload (occupying t url s1)) (slot t) = url
            ∧ trace (occupying t url s1) = trace s1.
Proof.
  intros Hin url r0 r. subst r. rewrite (media_node_run _ _ _ Hin).
  fold url. rewrite run_bind. fold r0. split_and!.
  - destruct (outcome r0); simpl; [by eexists|]. exists []. by rewrite app_nil_r.
  - by intros e ->.
  - intros Hok. rewrite Hok. simpl. split_and!.
    + intros ->. cbn [String.eqb Ascii.eqb Bool.eqb]. split_and!.
      * apply isGif_payload.
      * apply isGif_trace.
      * intros gif Hg. rewrite !run_bind. rewrite Hg. by destruct gif.
    + by intros ->.
    + by intros ->.
    + by intros ->.
  - intros t s1. split; [|done]. simpl. apply DictFacts.get_set_eq.
Qed.
End Nodes.

Lemma media_nodes_witness :
  let h := RefHost.host RefHost.accept_all (λ _, []) in
  let s := @new_Sender h "chat" in
  let r := @render_node h (Segment "file" {[ "url" := "base64://QUJD" ]} []) s in
  outcome r = Ok ()
  ∧ final r = @occupying h document (Some "base64://QUJD") (final (@sendBuffer h s)).
Proof.
  intros h s r.
  assert ("file" ∈ ["image"; "audio"; "video"; "file"]) as Hin by set_solver.
  exact (proj1 (proj2 (proj1 (proj2 (proj2
           (@media_nodes h "file" {[ "url" := "base64://QUJD" ]} [] s Hin)))
           eq_refl)) eq_refl).
Defined.

(** ** A data reference without the base64 marker *)

Section Abort.
Context `{Host}.

Lemma render_node_flush_first type attrs children :
  type ∈ flushing_types →
  ∃ k, render_node (Segment type attrs children) = (sendBuffer ≫= k).
Proof.
  intros Hin. rewrite render_node_eq. unfold render_body.
  set_unfold in Hin.
  destruct Hin as [->|[->|[->|[->|[->|[->|[->|[->|[]]]]]]]]];
    cbn [String.eqb Ascii.eqb Bool.eqb];
    rewrite ?bool_decide_eq_true_2 by set_solver;
    by eexists.
Qed.

(** C10.  When the occupied slot holds a reference of scheme [data:] whose
    text does not contain [base64,], [maybeFile] throws the type error of
    [Buffer.from], which receives [undefined]: it neither returns
    all-undefined nor lets the reference through.  The flush throws the
    same error before anything is sent or changed, and so does the walk at
    the final flush and at any node whose branch starts with a flush: the
    rest of the elements is not rendered. *)
Theorem data_without_marker_throws t url s :
  assetType s = Some t →
  Dict.get (payload s) (slot t) = Some url → url ≠ "" →
  URL_protocol url = Some "data:" →
  JsString.includes url "base64," = false →
  maybeFile (Some t) s = mkRun [] (Throw (TypeError "Buffer.from")) s
  ∧ sendBuffer s = mkRun [] (Throw (TypeError "Buffer.from")) s
  ∧ sendMessage [] s = mkRun [] (Throw (TypeError "Buffer.from")) s
  ∧ ∀ type attrs children rest, type ∈ flushing_types →
      render (Segment type attrs children :: rest) s
      = mkRun [] (Throw (TypeError "Buffer.from")) s.
Proof.
  intros Ht Hget Hne%String.eqb_neq Hp Hinc.
  assert (JsString.split url "base64," !! 1 = None) as Hsplit.
  { destruct (JsString.split url "base64," !! 1) as [d|] eqn:E; [|done].
    assert (is_Some (JsString.split url "base64," !! 1)) as Hs by by eexists.
    apply SplitFacts.split_second in Hs; [congruence|done]. }
  assert (maybeFile (Some t) s = mkRun [] (Throw (TypeError "Buffer.from")) s)
    as Hmf.
  { rewrite maybeFile_run. simpl. by rewrite Hget, Hne, Hp, Hsplit. }
  assert (sendBuffer s = mkRun [] (Throw (TypeError "Buffer.from")) s) as Hsb.
  { unfold sendBuffer. rewrite run_bind. simpl.
    rewrite bool_decide_eq_true_2 by (rewrite Ht; by eexists).
    unfold sendAsset. rewrite run_bind. simpl.
    rewrite run_bind, Ht, Hmf. done. }
  split_and!; [done|done|..].
  - unfold sendMessage. by rewrite (run_bind_pure _ _ s ()).
  - intros type attrs children rest Hin.
    change (render (Segment type attrs children :: rest))
      with (render_node (Segment type attrs children) ≫= λ _, render rest).
    destruct (render_node_flush_first type attrs children Hin) as [k ->].
    by rewrite !run_bind, Hsb.
Qed.
End Abort.

Lemma data_without_marker_throws_witness :
  let s := @occupying Sample.accepting document (Some "data:text/plain,hello")
             (@new_Sender Sample.accepting "chat") in
  @sendBuffer Sample.accepting s = mkRun [] (Throw (TypeError "Buffer.from")) s.
Proof.
  intros s.
  apply (proj1 (proj2 (@data_without_marker_throws Sample.accepting document
                         "data:text/plain,hello" s eq_refl eq_refl
                         ltac:(discriminate) eq_refl eq_refl))).
Defined.

(** ** The format mode *)

Section Mode.
Context `{Host}.

Lemma keys_get d k v : Dict.get d k = Some v → k ∈ Dict.keys d.
Proof.
  induction d as [|[k' v'] d IH]; simpl; [done|].
  destruct (String.eqb_spec k' k) as [->|]; [left|right; auto].
Qed.

Lemma append_fields_mem d ks s form k v :
  outcome (append_fields d ks s) = Ok form →
  k ∈ ks → Dict.get d k = Some v → (k, FText v) ∈ form.
Proof.
  revert form. induction ks as [|k' ks IH]; intros form; simpl.
  { intros _ Hin. by inversion Hin. }
  destruct (Dict.get d k') as [v'|] eqn:Hk'; [|done].
  rewrite run_bind.
  destruct (append_fields d ks s) as [sn [rest|e] fn]; simpl in *; [|done].
  intros [= <-] Hin Hget.
  apply elem_of_cons in Hin as [->|Hin].
  - rewrite Hk' in Hget. injection Hget as ->. left.
  - right. by apply IH.
Qed.





End Mode.



(** ** What the methods leave alone *)

Section Frame.
Context `{Host}.
Context (I : Sender → Prop) (frame : string → Prop).
Context (I_trace : ∀ f s, I s → I (with_trace f s)).
Context (I_results : ∀ f s, I s → I (with_results f s)).
Context (I_assetType : ∀ t s, I s → I (with_assetType t s)).
Context (I_delete : ∀ k s, frame k → I s → I (with_payload (λ d, Dict.del d k) s)).
Context (I_set : ∀ k v s, frame k → I s → I (with_payload (λ d, Dict.set d k v) s)).
Context (frame_slot : ∀ field, frame (key_of field)).
Context (frame_reply : frame "reply_to_message").
Context (frame_caption : frame "caption").

Lemma preserved_ret {A} (a : A) : preserved I (mret a).
Proof. by intros s HI. Qed.

Lemma preserved_throw {A} e : preserved I (throw (A := A) e).
Proof. by intros s HI. Qed.

Lemma preserved_get : preserved I get.
Proof. by intros s HI. Qed.

Lemma preserved_modify f : (∀ s, I s → I (f s)) → preserved I (modify f).
Proof. intros Hf s HI. simpl. split; [apply Forall_singleton|]; by apply Hf. Qed.

Lemma preserved_bind {A B} (m : M A) (f : A → M B) :
  preserved I m → (∀ a, preserved I (f a)) → preserved I (m ≫= f).
Proof.
  intros Hm Hf s HI. destruct (Hm s HI) as [Hseen Hfin]. rewrite run_bind.
  destruct (outcome (m s)) as [a|e]; simpl; [|done].
  destruct (Hf a (final (m s)) Hfin). split; [by apply Forall_app|done].
Qed.

Ltac preserve :=
  repeat first
    [ apply preserved_ret
    | apply preserved_throw
    | apply preserved_get
    | apply preserved_modify; intros ? ?; by auto
    | apply preserved_bind; [|intros ?]
    | progress unfold emit, warn, payload_set, payload_delete, push_result,
        new_URL_protocol, Buffer_from, sniff, open_file, call_api,
        caption_append
    | case_match ].

Lemma preserved_maybeFile field : preserved I (maybeFile field).
Proof. unfold maybeFile. preserve. Qed.

Lemma preserved_isGif url : preserved I (isGif url).
Proof. unfold isGif. preserve. Qed.

Lemma preserved_append_fields d ks : preserved I (append_fields d ks).
Proof. induction ks as [|k ks IH]; simpl; preserve. apply IH. Qed.

Lemma preserved_sendAsset : preserved I sendAsset.
Proof.
  unfold sendAsset. apply preserved_bind; [apply preserved_get|]. intros s0.
  apply preserved_bind; [apply preserved_maybeFile|]. intros [[field content] filename].
  apply preserved_bind; [apply preserved_get|]. intros s1.
  apply preserved_bind; [apply preserved_append_fields|]. intros form.
  preserve.
Qed.

Lemma preserved_sendBuffer : preserved I sendBuffer.
Proof.
  unfold sendBuffer. apply preserved_bind; [apply preserved_get|]. intros s0.
  case_bool_decide; [apply preserved_sendAsset|]. preserve.
Qed.

Context (frame_all : ∀ k, frame k).

Lemma preserved_render_list elements :
  Forall (λ e, preserved I (render_node e)) elements →
  preserved I (render elements).
Proof.
  intros Hall. induction Hall as [|e els He Hes IH]; simpl.
  - apply preserved_ret.
  - apply preserved_bind; [exact He|]. intros ?. exact IH.
Qed.

Lemma preserved_render_node e : preserved I (render_node e).
Proof.
  induction e as [type attrs children IH] using segment_nested_ind.
  apply preserved_render_list in IH.
  rewrite render_node_eq. unfold render_body.
  repeat case_match;
    repeat first
      [ exact IH
      | apply preserved_sendBuffer
      | apply preserved_isGif
      | apply preserved_bind; [|intros ?]
      | apply preserved_ret
      | apply preserved_get
      | apply preserved_modify; intros ? ?; by auto
      | progress unfold caption_append, payload_set
      | case_match ].
Qed.

Lemma preserved_render elements : preserved I (render elements).
Proof.
  apply preserved_render_list, Forall_forall. intros e _.
  apply preserved_render_node.
Qed.

Lemma preserved_sendMessage elements : preserved I (sendMessage elements).
Proof.
  apply preserved_bind; [apply preserved_render|]. intros ?.
  apply preserved_sendBuffer.
Qed.
End Frame.

Section General.
Context `{Host}.

(** No method touches [errors]. *)
Lemma errors_unchanged elements s :
  errors (final (sendMessage elements s)) = errors s.
Proof.
  by apply (preserved_sendMessage (λ s', errors s' = errors s) (λ _, True)).
Qed.

(** [send] adds no failure of its own: with no error recorded beforehand it
    returns the results when [sendMessage] returns and throws what
    [sendMessage] throws, and no error is recorded afterwards. *)
Lemma send_never_aggregates content s :
  errors s = [] →
  let r := sendMessage (segment_parse content) s in
  outcome (send content s)
    = match outcome r with
      | Ok _ => Ok (results (final r))
      | Throw e => Throw e
      end
  ∧ errors (final (send content s)) = [].
Proof.
  intros Herr r. subst r. unfold send. cbv zeta. rewrite run_bind.
  rewrite (run_bind_pure get _ _ (final (sendMessage (segment_parse content) s)))
    by done.
  rewrite errors_unchanged, Herr.
  destruct (outcome (sendMessage (segment_parse content) s)); simpl;
    by rewrite ?errors_unchanged.
Qed.

(** A flush leaves the key [reply_to_message_id] of the payload as it is,
    in every state it goes through. *)
Lemma flush_keeps_reply_to s :
  Forall (λ s', Dict.get (payload s') "reply_to_message_id"
                = Dict.get (payload s) "reply_to_message_id")
    (final (sendBuffer s) :: seen (sendBuffer s)).
Proof.
  apply Forall_cons.
  apply and_comm.
  apply (preserved_sendBuffer
           (λ s', Dict.get (payload s') "reply_to_message_id"
                  = Dict.get (payload s) "reply_to_message_id")
           (λ k, k ≠ "reply_to_message_id")); try done.
  - intros k s' Hk Hs'. simpl. by rewrite DictFacts.get_del_ne.
  - intros k v s' Hk Hs'. simpl. by rewrite DictFacts.get_set_ne.
  - by intros [[]|].
Qed.
End General.

(** ** Defects *)

(** C1.  The reply-to identifier set by a quote node survives a flush: the
    two plain-text sends of one render both carry it, and it is still in
    the payload at the end; an asset send and the plain-text send that
    follows it both carry it as well.  The flush deletes the key
    [reply_to_message], which is never set, instead of
    [reply_to_message_id]. *)
Theorem reply_to_survives_flush :
  (let r := @sendMessage Sample.accepting
              [Sample.quote "7"; Sample.text "a"; Sample.markdown; Sample.text "b"]
              (@new_Sender Sample.accepting "chat") in
   outcome r = Ok ()
   ∧ trace (final r)
     = [ApiCall (SendMessage "chat" "a" None (Some "7"));
        ApiCall (SendMessage "chat" "b" (Some "MarkdownV2") (Some "7"))]
   ∧ Dict.get (payload (final r)) "reply_to_message_id" = Some "7")
  ∧ (let r := @sendMessage Sample.accepting
                [Sample.quote "7"; Sample.image "https://x/y.png";
                 Sample.markdown; Sample.text "b"]
                (@new_Sender Sample.accepting "chat") in
     outcome r = Ok ()
     ∧ trace (final r)
       = [ApiCall (SendAsset "sendPhoto"
                     [("chat_id", FText "chat"); ("caption", FText "");
                      ("reply_to_message_id", FText "7");
                      ("photo", FText "https://x/y.png")]);
          ApiCall (SendMessage "chat" "b" (Some "MarkdownV2") (Some "7"))]
     ∧ Dict.get (payload (final r)) "reply_to_message_id" = Some "7").
Proof. split; vm_compute; by split_and!. Qed.

(** C2.  A failure of an API call is not recorded: with a bot that rejects
    the first call only, [send] throws that very error, the second text is
    never sent, and [errors] is empty at the end. *)
Theorem api_failure_aborts_send :
  let r := @send Sample.failing_once "a<markdown/>b"
             (@new_Sender Sample.failing_once "chat") in
  outcome r = Throw (ApiError "Bad Request")
  ∧ trace (final r) = [ApiCall (SendMessage "chat" "a" None None)]
  ∧ errors (final r) = []
  ∧ results (final r) = [].
Proof. vm_compute. by split_and!. Qed.

(** * Further properties of the walk *)

(** ** Composition of [render] *)

Section Laws.
Context `{Host}.

Lemma run_eta {A} (r : Run A) : mkRun (seen r) (outcome r) (final r) = r.
Proof. by destruct r. Qed.

Lemma bind_ret_r {A} (m : M A) s : (m ≫= mret) s = m s.
Proof.
  rewrite run_bind. destruct (m s) as [sn [a|e] fn]; simpl; [|done].
  by rewrite app_nil_r.
Qed.

Lemma bind_assoc {A B C} (m : M A) (f : A → M B) (g : B → M C) s :
  ((m ≫= f) ≫= g) s = (m ≫= λ a, f a ≫= g) s.
Proof.
  rewrite !run_bind. destruct (m s) as [sn [a|e] fn]; simpl; [|done].
  rewrite !run_bind. destruct (f a fn) as [sn' [b|e] fn']; simpl; [|done].
  by rewrite app_assoc.
Qed.

Lemma bind_ext {A B} (m : M A) (f g : A → M B) s :
  (∀ a s', f a s' = g a s') → (m ≫= f) s = (m ≫= g) s.
Proof. intros Hfg. rewrite !run_bind. destruct (outcome (m s)); by rewrite ?Hfg. Qed.

Lemma render_app_run l1 l2 s :
  render (l1 ++ l2) s = (render l1 ;; render l2) s.
Proof.
  revert s. induction l1 as [|e l1 IH]; intros s.
  - simpl. by rewrite (run_bind_pure _ _ s ()).
  - change (render ((e :: l1) ++ l2)) with (render_node e ;; render (l1 ++ l2)).
    change (render (e :: l1)) with (render_node e ;; render l1).
    rewrite bind_assoc. apply bind_ext. intros _ s'. apply IH.
Qed.

Lemma render_unknown type attrs children :
  type ∉ known_types →
  render_node (Segment type attrs children) = render children.
Proof.
  intros Hnot. rewrite render_node_eq. unfold render_body.
  assert (∀ k, k ∈ known_types → String.eqb type k = false) as Hk.
  { intros k Hin. apply String.eqb_neq. by intros ->. }
  rewrite !Hk by (refine (bool_decide_unpack _ _); by vm_compute).
  rewrite bool_decide_eq_false_2; [done|].
  intros Hin. apply Hnot.
  repeat (apply elem_of_cons in Hin as [->|Hin];
          [refine (bool_decide_unpack _ _); by vm_compute|]).
  by inversion Hin.
Qed.

(** X1.  [render] over a concatenation is [render] of the first part
    followed by [render] of the second, and a node of a type [render] has no
    branch for is transparent: anywhere in a list it renders as its
    children in its place. *)
Theorem render_splices type attrs children l1 l2 s :
  render (l1 ++ l2) s = (render l1 ;; render l2) s
  ∧ (type ∉ known_types →
     render (l1 ++ Segment type attrs children :: l2) s
     = render (l1 ++ children ++ l2) s).
Proof.
  split; [apply render_app_run|]. intros Hnot.
  rewrite !render_app_run. apply bind_ext. intros _ s'.
  change (render (Segment type attrs children :: l2))
    with (render_node (Segment type attrs children) ;; render l2).
  by rewrite render_unknown, render_app_run.
Qed.
End Laws.

(** ** What a flush leaves *)

Section Flushed.
Context `{Host}.

Lemma hoare_any {A} (P : Sender → Prop) (m : M A) :
  hoare (λ _, True) P m (λ _ _, True).
Proof. intros s _ _. split_and!; [by apply Forall_true|done|done]. Qed.

Lemma flushed_after_reset :
  hoare (λ _, True) (λ s, assetType s = None)
    (payload_set "caption" (Some "")) (λ _, flushed).
Proof.
  apply hoare_modify. intros s _ Hnone. split; [done|]. split; [done|].
  simpl. by rewrite DictFacts.get_set_eq.
Qed.

Lemma sendAsset_flushed : hoare (λ _, True) (λ _, True) sendAsset (λ _, flushed).
Proof.
  unfold sendAsset.
  eapply hoare_bind; [apply hoare_any|]; intros s0.
  eapply hoare_bind; [apply hoare_any|]; intros [[field content] filename].
  do 6 (eapply hoare_bind; [apply hoare_any|]; intros ?).
  eapply hoare_bind with (Q := λ _ s, assetType s = None).
  { by apply hoare_modify. }
  intros ?. apply flushed_after_reset.
Qed.

Lemma sendBuffer_flushed : hoare (λ _, True) (λ _, True) sendBuffer (λ _, flushed).
Proof.
  unfold sendBuffer. apply hoare_bind_get. intros s0. case_bool_decide as Hs.
  { eapply hoare_pre; [apply sendAsset_flushed|done]. }
  assert (assetType s0 = None) as Hnone.
  { destruct (assetType s0); [|done]. destruct Hs. by eexists. }
  destruct (JsString.truthy _) eqn:Hcap.
  - eapply hoare_bind with (Q := λ _ s, assetType s = None).
    { intros s _ [-> _]. rewrite call_api_run. cbv zeta.
      destruct (internal _ _); simpl; split_and!; try done;
        by apply Forall_true. }
    intros ?. repeat (eapply hoare_bind with (Q := λ _ s, assetType s = None);
                      [by apply hoare_modify|]; intros ?).
    apply flushed_after_reset.
  - apply hoare_ret_post. by intros s _ [-> _].
Qed.

Lemma sendBuffer_noop s : flushed s → sendBuffer s = mkRun [] (Ok ()) s.
Proof.
  intros [Hnone Hcap]. unfold sendBuffer.
  rewrite (run_bind_pure get _ s s) by done.
  rewrite bool_decide_eq_false_2 by (rewrite Hnone; by intros [? ?]).
  by rewrite Hcap.
Qed.

(** X2.  A flush that returns leaves nothing pending (no asset and an empty
    caption); with nothing pending a flush does nothing at all; a flush
    right after a flush adds nothing, whether the first returned or
    threw. *)
Theorem flush_settles s :
  (outcome (sendBuffer s) = Ok () → flushed (final (sendBuffer s)))
  ∧ (flushed s → sendBuffer s = mkRun [] (Ok ()) s)
  ∧ (sendBuffer ;; sendBuffer) s = sendBuffer s.
Proof.
  assert (outcome (sendBuffer s) = Ok () → flushed (final (sendBuffer s))) as Hpost.
  { intros Hok. exact (proj2 (proj2 (sendBuffer_flushed s Logic.I Logic.I)) () Hok). }
  split_and!; [done|apply sendBuffer_noop|].
  rewrite run_bind. destruct (outcome (sendBuffer s)) as [[]|e] eqn:Hrun.
  - rewrite (sendBuffer_noop _ (Hpost eq_refl)). cbn [seen outcome final].
    rewrite app_nil_r, <- Hrun. apply run_eta.
  - rewrite <- Hrun. apply run_eta.
Qed.
End Flushed.

(** ** Failures before the call *)

Section Stuck.
Context `{Host}.

Lemma has_keys d k : Dict.has d k = true → k ∈ Dict.keys d.
Proof.
  induction d as [|[k' v'] d IH]; simpl; [done|].
  destruct (String.eqb_spec k' k) as [->|]; [left|right; auto].
Qed.

Lemma append_fields_undefined d ks s k :
  k ∈ ks → Dict.get d k = None →
  append_fields d ks s = mkRun [] (Throw (TypeError "toString")) s.
Proof.
  intros Hin Hget. induction ks as [|k' ks IH]; [by inversion Hin|]. simpl.
  destruct (Dict.get d k') as [v|] eqn:Hk'; [|done].
  apply elem_of_cons in Hin as [->|Hin]; [congruence|].
  rewrite run_bind, (IH Hin). done.
Qed.

(** A flush whose resolution throws without a trace throws the same. *)
Lemma sendBuffer_resolution_throws s t e :
  assetType s = Some t →
  maybeFile (Some t) s = mkRun [] (Throw e) s →
  sendBuffer s = mkRun [] (Throw e) s.
Proof.
  intros Ht Hmf. unfold sendBuffer. rewrite (run_bind_pure get _ s s) by done.
  rewrite bool_decide_eq_true_2 by (rewrite Ht; by eexists).
  unfold sendAsset. rewrite (run_bind_pure get _ s s) by done.
  by rewrite run_bind, Ht, Hmf.
Qed.

(** A flush whose resolution does nothing and that finds an [undefined]
    field throws before the call. *)
Lemma sendBuffer_undefined_field s t res k :
  assetType s = Some t →
  maybeFile (Some t) s = mkRun [] (Ok res) s →
  Dict.has (payload s) k = true → Dict.get (payload s) k = None →
  sendBuffer s = mkRun [] (Throw (TypeError "toString")) s.
Proof.
  intros Ht Hmf Hhas Hget. unfold sendBuffer.
  rewrite (run_bind_pure get _ s s) by done.
  rewrite bool_decide_eq_true_2 by (rewrite Ht; by eexists).
  unfold sendAsset. rewrite (run_bind_pure get _ s s) by done.
  rewrite Ht, (run_bind_pure _ _ s res) by done.
  destruct res as [[field content] filename].
  rewrite (run_bind_pure get _ s s) by done.
  rewrite run_bind, (append_fields_undefined _ _ _ k); [done|by apply has_keys|done].
Qed.

(** X3.  With a slot occupied by a reference that [URL] cannot parse, by a
    [file:] reference that [fileURLToPath] rejects, or by a [base64:]
    reference without [://], the flush throws the type error of that step
    before anything is sent, and leaves the sender as it was. *)
Theorem malformed_reference_throws t url s :
  assetType s = Some t →
  Dict.get (payload s) (slot t) = Some url → url ≠ "" →
  (URL_protocol url = None →
     sendBuffer s = mkRun [] (Throw (TypeError "new URL")) s)
  ∧ (URL_protocol url = Some "file:" → fileURLToPath url = None →
     sendBuffer s = mkRun [] (Throw (TypeError "fileURLToPath")) s)
  ∧ (URL_protocol url = Some "base64:" → JsString.includes url "://" = false →
     sendBuffer s = mkRun [] (Throw (TypeError "Buffer.from")) s).
Proof.
  intros Ht Hget Hne%String.eqb_neq.
  split_and!; intros Hp; [|intros Hf|intros Hinc];
    apply (sendBuffer_resolution_throws s t _ Ht);
    rewrite maybeFile_run; simpl; rewrite Hget, Hne, Hp; simpl; [done| |].
  - by rewrite Hf.
  - by rewrite (SplitFacts.split_absent _ _ Hinc).
Qed.

(** X4.  When an asset is pending whose slot is empty or holds a remote
    reference, and some key of the payload holds [undefined], the flush
    throws in the loop that stringifies the fields, before the call, and
    leaves the sender as it was. *)
Theorem undefined_field_blocks_asset_send t k s :
  assetType s = Some t →
  Dict.has (payload s) k = true → Dict.get (payload s) k = None →
  (JsString.truthy (Dict.get (payload s) (slot t)) = false
   ∨ ∃ url p, Dict.get (payload s) (slot t) = Some url ∧ url ≠ ""
              ∧ URL_protocol url = Some p
              ∧ p ≠ "file:" ∧ p ≠ "base64:" ∧ p ≠ "data:") →
  sendBuffer s = mkRun [] (Throw (TypeError "toString")) s.
Proof.
  intros Ht Hhas Hget Hslot.
  assert (∃ res, maybeFile (Some t) s = mkRun [] (Ok res) s) as [res Hmf].
  { rewrite maybeFile_run. simpl.
    destruct Hslot as [Hfalsy|(url & p & -> & Hne%String.eqb_neq & -> & Hf%String.eqb_neq
                               & Hb%String.eqb_neq & Hd%String.eqb_neq)].
    - destruct (Dict.get (payload s) (slot t)) as [url|]; [|by eexists].
      simpl in Hfalsy. apply negb_false_iff in Hfalsy as ->. by eexists.
    - rewrite Hne, Hf, Hb, Hd. by eexists. }
  by eapply sendBuffer_undefined_field.
Qed.
End Stuck.

(** ** A logic of final states *)

Section Ends.
Context `{Host}.
Context (P : Sender → Prop).

Lemma ends_ret {A} (Pre : Sender → Prop) (a : A) (Q : A → Sender → Prop) :
  (∀ s, P s → Pre s → Q a s) → ends P Pre (mret a) Q.
Proof. intros HQ s HP Hpre. split; [done|]. intros a' [= <-]. by apply HQ. Qed.

Lemma ends_throw {A} (Pre : Sender → Prop) e (Q : A → Sender → Prop) :
  ends P Pre (throw e) Q.
Proof. by intros s HP Hpre. Qed.

Lemma ends_modify (Pre Q : Sender → Prop) f :
  (∀ s, P s → Pre s → P (f s) ∧ Q (f s)) → ends P Pre (modify f) (λ _, Q).
Proof. intros Hf s HP Hpre. destruct (Hf s HP Hpre). by split. Qed.

Lemma ends_bind {A B} (Pre : Sender → Prop) (m : M A) (Q : A → Sender → Prop)
    (f : A → M B) (R : B → Sender → Prop) :
  ends P Pre m Q → (∀ a, ends P (Q a) (f a) R) → ends P Pre (m ≫= f) R.
Proof.
  intros Hm Hf s HP Hpre. destruct (Hm s HP Hpre) as [Hfin Hpost].
  rewrite run_bind. destruct (outcome (m s)) as [a|e]; simpl; [|done].
  apply (Hf a); auto.
Qed.

Lemma ends_bind_get {B} (Pre : Sender → Prop) (f : Sender → M B)
    (R : B → Sender → Prop) :
  (∀ s0, ends P (λ s, s = s0 ∧ Pre s) (f s0) R) → ends P Pre (get ≫= f) R.
Proof.
  intros Hf s HP Hpre. rewrite (run_bind_pure get _ s s) by done.
  by apply (Hf s).
Qed.

Lemma ends_pre {A} (Pre Pre' : Sender → Prop) (m : M A) (Q : A → Sender → Prop) :
  ends P Pre' m Q → (∀ s, P s → Pre s → Pre' s) → ends P Pre m Q.
Proof. intros Hm Himp s HP Hpre. apply Hm; auto. Qed.

Lemma ends_post {A} (Pre : Sender → Prop) (m : M A) (Q Q' : A → Sender → Prop) :
  ends P Pre m Q' → (∀ a s, P s → Q' a s → Q a s) → ends P Pre m Q.
Proof.
  intros Hm Himp s HP Hpre. destruct (Hm s HP Hpre) as [Hfin Hpost].
  split; [done|]. intros a Ha. apply Himp; auto.
Qed.

Lemma ends_pure {A} (Pre : Sender → Prop) (m : M A) :
  (∀ s, seen (m s) = [] ∧ final (m s) = s) → ends P Pre m (λ _, Pre).
Proof. intros Hm s HP Hpre. destruct (Hm s) as [_ ->]. by split. Qed.
End Ends.

Section Emits.
Context `{Host}.
Context (P : Sender → Prop).
Context (P_set : ∀ k v s, k ≠ "chat_id" → P s → P (with_payload (λ d, Dict.set d k v) s)).
Context (P_del : ∀ k s, k ≠ "chat_id" → P s → P (with_payload (λ d, Dict.del d k) s)).
Context (P_assetType : ∀ t s, P s → P (with_assetType t s)).
Context (P_quiet : ∀ e s, quiet e → P s → P (with_trace (λ t, t ++ [e]) s)).
Context (P_call : ∀ c s, P s → issued s c → P (answered c s)).

Lemma kept_ret {A} (a : A) : kept P (mret a).
Proof. by apply ends_ret. Qed.

Lemma kept_throw {A} e : kept P (throw (A := A) e).
Proof. apply ends_throw. Qed.

Lemma kept_get : kept P get.
Proof. by intros s HP _. Qed.

Lemma kept_modify f : (∀ s, P s → P (f s)) → kept P (modify f).
Proof. intros Hf s HP _. split; [by apply Hf|done]. Qed.

Lemma kept_bind {A B} (m : M A) (f : A → M B) :
  kept P m → (∀ a, kept P (f a)) → kept P (m ≫= f).
Proof. intros Hm Hf. eapply ends_bind; [exact Hm|]. intros a. apply Hf. Qed.

Lemma kept_any_pre {A} (Pre : Sender → Prop) (m : M A) (Q : A → Sender → Prop) :
  kept P m → (∀ a s, Q a s) → ends P Pre m Q.
Proof.
  intros Hm HQ. apply (ends_pre P Pre (λ _, True)); [|done].
  eapply ends_post; [exact Hm|]. auto.
Qed.

Lemma key_of_not_chat field : key_of field ≠ "chat_id".
Proof. by destruct field as [[]|]. Qed.

Ltac keep :=
  repeat first
    [ apply kept_ret
    | apply kept_throw
    | apply kept_get
    | apply kept_modify; intros ? ?;
        first [ apply P_quiet; [exact Logic.I|assumption]
              | apply P_del; [first [apply key_of_not_chat|discriminate]|assumption]
              | apply P_set; [first [by intros []|discriminate]|assumption]
              | by apply P_assetType ]
    | apply kept_bind; [|intros ?]
    | progress unfold emit, warn, payload_set, payload_delete,
        new_URL_protocol, Buffer_from, sniff, open_file, caption_append
    | case_match ].

Lemma kept_maybeFile field : kept P (maybeFile field).
Proof. unfold maybeFile. keep. Qed.

Lemma kept_isGif url : kept P (isGif url).
Proof. unfold isGif. keep. Qed.

(** A call that may be issued, its result pushed, and what follows. *)
Lemma ends_call (Pre : Sender → Prop) c (k : M unit) :
  (∀ s, P s → Pre s → issued s c) → kept P k →
  ends P Pre (msg ← call_api c; push_result msg ;; k) (λ _ _, True).
Proof.
  intros Hissued Hk s HP Hpre. rewrite run_bind, call_api_run. cbv zeta.
  pose proof (P_call c s HP (Hissued s HP Hpre)) as Hans. unfold answered in Hans.
  destruct (internal (trace s) c) as [msg|e]; cbn [outcome final seen]; [|done].
  rewrite run_bind. cbn [outcome final seen push_result modify].
  split; [|done]. by apply Hk.
Qed.

Lemma ends_append_fields s1 :
  ends P (λ s, s = s1)
    (append_fields (payload s1) (Dict.keys (payload s1)))
    (λ form s, s = s1 ∧ ∀ k v, Dict.get (payload s1) k = Some v → (k, FText v) ∈ form).
Proof.
  intros s HP ->.
  destruct (append_fields_pure (payload s1) (Dict.keys (payload s1)) s1) as [_ Hfin].
  rewrite Hfin. split; [done|]. intros form Hform. split; [done|].
  intros k v Hget. eapply append_fields_mem; [exact Hform| |exact Hget].
  by eapply keys_get.
Qed.

Lemma kept_sendAsset : kept P sendAsset.
Proof.
  unfold sendAsset. apply kept_bind; [apply kept_get|]. intros s0.
  apply kept_bind; [apply kept_maybeFile|]. intros [[field content] filename].
  apply ends_bind_get. intros s1.
  eapply ends_bind.
  { eapply ends_pre; [apply ends_append_fields|]. by intros s _ [-> _]. }
  intros form. cbv zeta. destruct (assetType s0) as [t|].
  - apply ends_call.
    + intros s _ [-> Hform] k v Hget. simpl.
      destruct field, content; rewrite ?elem_of_app; auto.
    + keep.
  - by intros s HP _.
Qed.

Lemma kept_sendBuffer : kept P sendBuffer.
Proof.
  unfold sendBuffer. apply ends_bind_get. intros s0.
  case_bool_decide; [by apply kept_any_pre; [apply kept_sendAsset|]|].
  destruct (JsString.truthy _).
  - apply ends_call; [by intros s _ [-> _]|keep].
  - by apply ends_ret.
Qed.

Lemma kept_render_list elements :
  Forall (λ e, kept P (render_node e)) elements → kept P (render elements).
Proof.
  intros Hall. induction Hall as [|e els He Hes IH]; simpl.
  - apply kept_ret.
  - apply kept_bind; [exact He|]. intros ?. exact IH.
Qed.

Lemma kept_render_node e : kept P (render_node e).
Proof.
  induction e as [type attrs children IH] using segment_nested_ind.
  apply kept_render_list in IH.
  rewrite render_node_eq. unfold render_body.
  repeat case_match;
    repeat first
      [ exact IH
      | apply kept_sendBuffer
      | apply kept_isGif
      | apply kept_bind; [|intros ?]
      | apply kept_ret
      | apply kept_get
      | apply kept_modify; intros ? ?;
          first [ apply P_set;
                    [first [discriminate
                           |match goal with |- slot ?t ≠ _ => by destruct t end]
                    |assumption]
                | by apply P_assetType ]
      | progress unfold caption_append, payload_set
      | case_match ].
Qed.

Lemma kept_sendMessage elements : kept P (sendMessage elements).
Proof.
  apply kept_bind; [|intros ?; apply kept_sendBuffer].
  apply kept_render_list, Forall_forall. intros e _. apply kept_render_node.
Qed.
End Emits.

(** ** Results and addressees *)

Section Answers.
Context `{Host}.

Lemma answers_from_snoc pre evs e :
  answers_from pre (evs ++ [e]) = answers_from pre evs ++ reply (pre ++ evs) e.
Proof.
  revert pre. induction evs as [|e' evs IH]; intros pre; simpl.
  - by rewrite !app_nil_r.
  - by rewrite IH, <- !app_assoc.
Qed.

Lemma answers_snoc tr e : answers (tr ++ [e]) = answers tr ++ reply tr e.
Proof. apply answers_from_snoc. Qed.

Lemma results_kept elements :
  kept (λ s, results s = answers (trace s)) (sendMessage elements).
Proof.
  apply kept_sendMessage; try done.
  - intros e s Hq Hs. simpl. rewrite answers_snoc, Hs.
    destruct e; simpl; by rewrite ?app_nil_r.
  - intros c s Hs _. unfold answered.
    destruct (internal (trace s) c) as [msg|e] eqn:Hc; simpl;
      by rewrite answers_snoc, Hs; simpl; rewrite Hc, ?app_nil_r.
Qed.

(** X6.  After [send] on a new sender, whether it returns or throws,
    [results] holds exactly the messages the bot returned, in the order of
    the calls; what [send] returns is that list. *)
Theorem results_are_answers chat content :
  let r := send content (new_Sender chat) in
  results (final r) = answers (trace (final r))
  ∧ ∀ res, outcome r = Ok res → res = answers (trace (final r)).
Proof.
  intros r. subst r. unfold send. cbv zeta.
  destruct (results_kept (segment_parse content) (new_Sender chat) eq_refl Logic.I)
    as [Hres _].
  rewrite run_bind.
  destruct (outcome (sendMessage (segment_parse content) (new_Sender chat)));
    cbn [outcome final seen]; [|done].
  rewrite (run_bind_pure get _ _ (final (sendMessage (segment_parse content) (new_Sender chat))))
    by done.
  destruct (errors _); simpl; [|done]. split; [done|]. by intros res [= <-].
Qed.

Lemma chat_kept chat elements :
  kept (λ s, chat_id s = chat
             ∧ Dict.get (payload s) "chat_id" = Some chat
             ∧ ∀ c, ApiCall c ∈ trace s → targets chat c)
    (sendMessage elements).
Proof.
  apply kept_sendMessage.
  - intros k v s Hk (? & ? & ?). split_and!; [done| |done].
    simpl. by rewrite DictFacts.get_set_ne.
  - intros k s Hk (? & ? & ?). split_and!; [done| |done].
    simpl. by rewrite DictFacts.get_del_ne.
  - done.
  - intros e s Hq (? & ? & Hcalls). split_and!; [done..|].
    intros c [?|Hin%list_elem_of_singleton]%elem_of_app; [auto|].
    by subst e.
  - intros c s (Hid & Hget & Hcalls) Hissued.
    assert (targets chat c) as Hc.
    { destruct c as [chat' text pm rid|method form]; simpl in *.
      - destruct Hissued as [-> _]. done.
      - by apply Hissued. }
    unfold answered. destruct (internal (trace s) c); (split_and!; [done..|]);
      (intros c' [?|Hin%list_elem_of_singleton]%elem_of_app; [auto|]);
      by injection Hin as ->.
Qed.

(** X7.  Every call a walk from a new sender makes is addressed to the
    chat of the sender: a plain-text send by its [chat_id], an asset send by
    the text field [chat_id] of its form. *)
Theorem calls_target_chat chat elements c :
  ApiCall c ∈ trace (final (sendMessage elements (new_Sender chat))) →
  targets chat c.
Proof.
  destruct (chat_kept chat elements (new_Sender chat)) as [(_ & _ & Hcalls) _];
    [|done|by apply Hcalls].
  split_and!; [done..|]. intros c' Hin. by inversion Hin.
Qed.
End Answers.

(** ** Walks over simple nodes *)

Section Inline.
Context `{Host}.

Lemma resting_fresh chat : new_Sender chat = resting chat "" None [] [].
Proof. done. Qed.

Lemma caption_append_resting text chat cap pend res tr :
  let s' := resting chat (cap +:+ text) pend res tr in
  caption_append text (resting chat cap pend res tr) = mkRun [s'] (Ok ()) s'.
Proof. destruct pend as [[t u]|]; reflexivity. Qed.

Lemma inline_node_resting e chat cap pend res tr :
  is_inline e = true →
  let s' := resting chat (from_option (String.append cap) cap (fragment e))
              pend res tr in
  outcome (render_node e (resting chat cap pend res tr)) = Ok ()
  ∧ final (render_node e (resting chat cap pend res tr)) = s'.
Proof.
  destruct e as [type attrs children]. intros Hin%bool_decide_eq_true.
  rewrite render_node_eq. unfold render_body, fragment.
  repeat (apply elem_of_cons in Hin as [->|Hin]); [..|by inversion Hin];
    cbn [String.eqb Ascii.eqb Bool.eqb].
  - by rewrite caption_append_resting.
  - pose proof (or_chain [attrs !! "name"; attrs !! "id"; attrs !! "role"]
                  (attrs !! "type")) as Hat.
    cbn [foldr app] in Hat. destruct (first_nonempty _) as [target|]; simpl.
    + destruct Hat as [-> ->]. by rewrite caption_append_resting.
    + by rewrite Hat.
  - pose proof (or_chain [attrs !! "name"] (attrs !! "id")) as Hsharp.
    cbn [foldr app] in Hsharp. destruct (first_nonempty _) as [target|]; simpl.
    + destruct Hsharp as [-> ->]. by rewrite caption_append_resting.
    + by rewrite Hsharp.
Qed.

Lemma inline_render_resting elements chat cap pend res tr :
  forallb is_inline elements = true →
  outcome (render elements (resting chat cap pend res tr)) = Ok ()
  ∧ final (render elements (resting chat cap pend res tr))
    = resting chat (captioned cap elements) pend res tr.
Proof.
  revert cap. induction elements as [|e els IH]; intros cap Hall; [done|].
  simpl in Hall. apply andb_prop in Hall as [He Hels].
  destruct (inline_node_resting e chat cap pend res tr He) as [Hok Hfin].
  change (render (e :: els)) with (render_node e ;; render els).
  rewrite run_bind, Hok. cbn [outcome final seen]. rewrite Hfin.
  apply (IH _ Hels).
Qed.

(** The flush of a caption with no asset pending. *)
Lemma flush_text chat cap res tr :
  cap ≠ "" →
  let c := SendMessage chat cap None None in
  final (sendBuffer (resting chat cap None res tr))
  = match internal tr c with
    | Ok msg => resting chat "" None (res ++ [msg]) (tr ++ [ApiCall c])
    | Throw _ => resting chat cap None res (tr ++ [ApiCall c])
    end
  ∧ outcome (sendBuffer (resting chat cap None res tr))
    = match internal tr c with
      | Ok _ => Ok ()
      | Throw e => Throw e
      end.
Proof.
  intros Hne%String.eqb_neq. cbv zeta. unfold sendBuffer.
  rewrite (run_bind_pure get _ _ (resting chat cap None res tr)) by done.
  rewrite bool_decide_eq_false_2 by (by intros [? ?]).
  simpl. rewrite Hne. simpl.
  rewrite run_bind, call_api_run. simpl. by destruct (internal tr _).
Qed.

(** X8.  A walk over text, at and sharp nodes only, from a new sender,
    makes no call when the fragments add up to the empty string and
    otherwise exactly one plain-text send, with the fragments concatenated
    in order, no format mode and no reply-to. *)
Theorem text_only_run elements chat :
  forallb is_inline elements = true →
  let text := captioned "" elements in
  trace (final (sendMessage elements (new_Sender chat)))
  = if String.eqb text "" then []
    else [ApiCall (SendMessage chat text None None)].
Proof.
  intros Hall text. rewrite resting_fresh. unfold sendMessage.
  destruct (inline_render_resting elements chat "" None [] [] Hall) as [Hok Hfin].
  rewrite run_bind, Hok. cbn [outcome final seen]. rewrite Hfin. fold text.
  destruct (String.eqb_spec text "") as [->|Hne]; [done|].
  destruct (flush_text chat text [] [] Hne) as [-> _].
  by destruct (internal [] _).
Qed.
End Inline.

Section Batching.
Context `{Host}.
Context (accepts : ∀ tr c, ∃ msg, internal tr c = Ok msg).

Lemma flush_asset_resting chat cap t u res tr :
  remote u →
  ∃ res', outcome (sendBuffer (resting chat cap (Some (t, u)) res tr)) = Ok ()
    ∧ final (sendBuffer (resting chat cap (Some (t, u)) res tr))
      = resting chat "" None res'
          (tr ++ map ApiCall (flush_calls chat cap (Some (t, u)))).
Proof.
  intros (Hne%String.eqb_neq & p & Hp & Hf%String.eqb_neq & Hb%String.eqb_neq
          & Hd%String.eqb_neq).
  set (s := resting chat cap (Some (t, u)) res tr).
  assert (maybeFile (Some t) s = mkRun [] (Ok (Some t, None, Some "file")) s) as Hmf.
  { rewrite maybeFile_run. subst s. destruct t; simpl; by rewrite Hne, Hp, Hf, Hb, Hd. }
  set (c := SendAsset (assetApi t)
              [("chat_id", FText chat); ("caption", FText cap); (slot t, FText u)]).
  destruct (accepts tr c) as [msg Hmsg]. exists (res ++ [msg]).
  unfold sendBuffer. rewrite (run_bind_pure get _ s s) by done.
  rewrite bool_decide_eq_true_2 by (by eexists).
  unfold sendAsset. rewrite (run_bind_pure get _ s s) by done.
  rewrite (run_bind_pure _ _ s (Some t, None, Some "file")) by done.
  rewrite (run_bind_pure get _ s s) by done.
  assert (append_fields (payload s) (Dict.keys (payload s)) s
          = mkRun [] (Ok [("chat_id", FText chat); ("caption", FText cap);
                          (slot t, FText u)]) s) as Happ.
  { subst s. by destruct t. }
  rewrite (run_bind_pure _ _ s _ Happ).
  change (assetType s) with (Some t). cbv zeta.
  rewrite run_bind, call_api_run. cbv zeta. fold c.
  change (trace s) with tr. rewrite Hmsg. subst s c.
  destruct t; split; reflexivity.
Qed.

Lemma flush_resting chat cap pend res tr :
  from_option (λ tu, remote tu.2) True pend →
  ∃ res', outcome (sendBuffer (resting chat cap pend res tr)) = Ok ()
    ∧ final (sendBuffer (resting chat cap pend res tr))
      = resting chat "" None res' (tr ++ map ApiCall (flush_calls chat cap pend)).
Proof.
  destruct pend as [[t u]|]; intros Hpend.
  { by apply flush_asset_resting. }
  unfold flush_calls. destruct (String.eqb_spec cap "") as [->|Hne].
  - exists res. cbn [map]. rewrite app_nil_r. by split.
  - destruct (flush_text chat cap res tr Hne) as [Hfin Hok].
    destruct (accepts tr (SendMessage chat cap None None)) as [msg Hmsg].
    rewrite Hmsg in Hfin, Hok. by exists (res ++ [msg]).
Qed.

Lemma media_node_resting type attrs children u chat cap pend res tr :
  type ∈ ["image"; "audio"; "video"; "file"] →
  attrs !! "url" = Some u → remote u →
  from_option (λ tu, remote tu.2) True pend →
  let s := resting chat cap pend res tr in
  ∃ res', outcome (render_node (Segment type attrs children) s) = Ok ()
    ∧ final (render_node (Segment type attrs children) s)
      = resting chat "" (Some (slot_for type u, u)) res'
          (tr ++ map ApiCall (flush_calls chat cap pend)).
Proof.
  intros Hin Hurl Hu Hpend s. subst s.
  rewrite (media_node_run _ _ _ Hin), Hurl.
  destruct (flush_resting chat cap pend res tr Hpend) as (res' & Hok & Hfin).
  exists res'. rewrite run_bind, Hok. cbn [outcome final seen]. rewrite Hfin.
  set (tr' := tr ++ map ApiCall (flush_calls chat cap pend)).
  assert (isGif (Some u) (resting chat "" None res' tr')
          = mkRun [] (Ok (JsString.endsWith (JsString.toLowerCase u) ".gif"))
              (resting chat "" None res' tr')) as Hgif.
  { rewrite isGif_run. destruct (JsString.endsWith _ _); [done|].
    destruct Hu as (_ & p & -> & _ & Hb%String.eqb_neq & Hd%String.eqb_neq).
    simpl. by rewrite Hb, Hd. }
  unfold slot_for.
  repeat (apply elem_of_cons in Hin as [->|Hin]); [..|by inversion Hin];
    cbn [String.eqb Ascii.eqb Bool.eqb].
  - rewrite run_bind, run_bind, Hgif. cbn [outcome final seen].
    by destruct (JsString.endsWith _ _).
  - done.
  - done.
  - done.
Qed.

Lemma plan_run elements chat cap pend res tr :
  Forall simple elements →
  from_option (λ tu, remote tu.2) True pend →
  ∃ res', outcome (sendMessage elements (resting chat cap pend res tr)) = Ok ()
    ∧ final (sendMessage elements (resting chat cap pend res tr))
      = resting chat "" None res' (tr ++ map ApiCall (plan chat cap pend elements)).
Proof.
  intros Hall. revert cap pend res tr.
  induction Hall as [|e els He Hels IH]; intros cap pend res tr Hpend.
  { unfold sendMessage. rewrite (run_bind_pure _ _ _ ()) by done.
    by apply flush_resting. }
  assert (∀ s, sendMessage (e :: els) s
               = (render_node e ≫= λ _, sendMessage els) s) as Hcons.
  { intros s. unfold sendMessage.
    change (render (e :: els)) with (render_node e ;; render els).
    by rewrite bind_assoc. }
  rewrite Hcons, run_bind. destruct e as [type attrs children].
  destruct (is_inline (Segment type attrs children)) eqn:Hinl.
  - destruct (inline_node_resting _ chat cap pend res tr Hinl) as [Hok Hfin].
    rewrite Hok. cbn [outcome final seen]. rewrite Hfin.
    cbn [plan]. rewrite Hinl. by apply IH.
  - destruct He as [He|(Hin & u & Hurl & Hu)]; [congruence|].
    destruct (media_node_resting type attrs children u chat cap pend res tr
                Hin Hurl Hu Hpend) as (res' & Hok & Hfin).
    rewrite Hok. cbn [outcome final seen]. rewrite Hfin.
    destruct (IH "" (Some (slot_for type u, u)) res'
                (tr ++ map ApiCall (flush_calls chat cap pend)) Hu)
      as (res'' & Hok' & Hfin').
    exists res''. rewrite Hok', Hfin'. split; [done|].
    cbn [plan]. rewrite Hinl, Hurl. simpl.
    by rewrite map_app, app_assoc.
Qed.

(** X9.  With a bot that accepts every call, a walk over inline nodes and
    media nodes with remote references returns, and its calls are those of
    [plan]: one asset send per media node, in order, whose caption is the
    text that follows the node up to the next media node, preceded by one
    plain-text send for the text in front of the first media node, if
    any. *)
Theorem batching_plan elements chat :
  Forall simple elements →
  let r := sendMessage elements (new_Sender chat) in
  outcome r = Ok ()
  ∧ trace (final r) = map ApiCall (plan chat "" None elements).
Proof.
  intros Hall r. subst r. rewrite resting_fresh.
  destruct (plan_run elements chat "" None [] [] Hall Logic.I)
    as (res' & -> & ->).
  done.
Qed.
End Batching.

(** ** Single nodes *)

Section More.
Context `{Host}.

(** X5.  A media node without a [url] attribute, after a flush that
    returns: an image node throws in [isGif] and occupies nothing; an
    audio, video or file node returns with the slot holding [undefined],
    and the next flush throws in the loop that stringifies the fields,
    before any call. *)
Theorem media_without_url type attrs children s :
  attrs !! "url" = None →
  outcome (sendBuffer s) = Ok () →
  let r := render_node (Segment type attrs children) s in
  (type = "image" →
     outcome r = Throw (TypeError "toLowerCase") ∧ final r = final (sendBuffer s))
  ∧ (type ∈ ["audio"; "video"; "file"] →
     outcome r = Ok ()
     ∧ sendBuffer (final r) = mkRun [] (Throw (TypeError "toString")) (final r)).
Proof.
  intros Hurl Hok r. subst r. split.
  - intros ->. rewrite media_node_run by (refine (bool_decide_unpack _ _); by vm_compute).
    rewrite run_bind, Hok, Hurl. cbn [outcome final seen String.eqb Ascii.eqb Bool.eqb].
    by rewrite !run_bind.
  - intros Hin.
    assert (type ∈ ["image"; "audio"; "video"; "file"]) as Hin' by by right.
    rewrite (media_node_run _ _ _ Hin'), run_bind, Hok, Hurl.
    cbn [outcome final seen].
    set (s0 := final (sendBuffer s)).
    assert (∃ t, (if String.eqb type "image"
                  then gif ← isGif None; mret (if gif : bool then animation else photo)
                  else if String.eqb type "file" then mret document
                       else mret (slot_of_type type)) s0
                 = mkRun [] (Ok t) s0) as [t Ht].
    { repeat (apply elem_of_cons in Hin as [->|Hin]); [..|by inversion Hin];
        by eexists. }
    rewrite (run_bind_pure _ _ s0 t Ht). rewrite !run_bind.
    cbn [outcome final seen modify payload_set]. split; [done|].
    eapply (sendBuffer_undefined_field _ t (None, None, None) (slot t)).
    + done.
    + rewrite maybeFile_run. simpl. by rewrite DictFacts.get_set_eq.
    + simpl. by rewrite DictFacts.has_set, String.eqb_refl.
    + simpl. by rewrite DictFacts.get_set_eq.
Qed.

(** X10.  A message node that carries a quote attribute behaves as a quote
    node, whatever its children; without it the node is a flush, its
    children, and a flush, so that on return nothing is pending. *)
Theorem nested_message attrs children s :
  (is_Some (attrs !! "quote") →
     render_node (Segment "message" attrs children) s
     = render_node (Segment "quote" attrs []) s)
  ∧ (attrs !! "quote" = None →
     render_node (Segment "message" attrs children) s
     = (sendBuffer ;; render children ;; sendBuffer) s)
  ∧ (attrs !! "quote" = None →
     outcome (render_node (Segment "message" attrs children) s) = Ok () →
     flushed (final (render_node (Segment "message" attrs children) s))).
Proof.
  assert (attrs !! "quote" = None →
          render_node (Segment "message" attrs children)
          = (sendBuffer ;; render children ;; sendBuffer)) as Hrun.
  { intros Hq. rewrite render_node_eq. unfold render_body.
    cbn [String.eqb Ascii.eqb Bool.eqb].
    rewrite bool_decide_eq_false_2 by (refine (bool_decide_unpack _ _); by vm_compute).
    rewrite bool_decide_eq_false_2; [done|]. rewrite Hq. by intros [? ?]. }
  split_and!.
  - intros Hq. rewrite !render_node_eq. unfold render_body.
    cbn [String.eqb Ascii.eqb Bool.eqb].
    rewrite bool_decide_eq_false_2 by (refine (bool_decide_unpack _ _); by vm_compute).
    by rewrite (bool_decide_eq_true_2 _ Hq).
  - intros Hq. by rewrite Hrun.
  - intros Hq. rewrite (Hrun Hq).
    assert (hoare (λ _, True) (λ _, True)
              (sendBuffer ;; render children ;; sendBuffer) (λ _, flushed)) as Hh.
    { eapply hoare_bind; [apply hoare_any|]. intros ?.
      eapply hoare_bind; [apply hoare_any|]. intros ?. apply sendBuffer_flushed. }
    intros Hok. exact (proj2 (proj2 (Hh s Logic.I Logic.I)) () Hok).
Qed.

(** X11.  On a sender with nothing pending, a quote, markdown or html node
    makes no call: it only sets its field of the payload
    ([reply_to_message_id] to the id attribute, [parse_mode] to
    [MarkdownV2] or [html]), and nothing is pending afterwards. *)
Theorem control_nodes_send_nothing type attrs children s :
  flushed s →
  let r := render_node (Segment type attrs children) s in
  (type = "quote" →
     r = mkRun [with_payload (λ d, Dict.set d "reply_to_message_id" (attrs !! "id")) s]
           (Ok ())
           (with_payload (λ d, Dict.set d "reply_to_message_id" (attrs !! "id")) s))
  ∧ (type = "markdown" →
     r = mkRun [with_payload (λ d, Dict.set d "parse_mode" (Some "MarkdownV2")) s]
           (Ok ())
           (with_payload (λ d, Dict.set d "parse_mode" (Some "MarkdownV2")) s))
  ∧ (type = "html" →
     r = mkRun [with_payload (λ d, Dict.set d "parse_mode" (Some "html")) s]
           (Ok ())
           (with_payload (λ d, Dict.set d "parse_mode" (Some "html")) s))
  ∧ (type ∈ ["quote"; "markdown"; "html"] →
     flushed (final r) ∧ trace (final r) = trace s ∧ results (final r) = results s).
Proof.
  intros Hfl r. subst r. pose proof (sendBuffer_noop s Hfl) as Hnoop.
  assert (∀ k v, k ≠ "caption" →
            flushed (with_payload (λ d, Dict.set d k v) s)) as Hset.
  { intros k v Hk. destruct Hfl as [Hnone Hcap]. split; [done|].
    simpl. by rewrite DictFacts.get_set_ne. }
  rewrite render_node_eq. unfold render_body.
  split_and!; [intros ->..|intros Hin];
    [| | |repeat (apply elem_of_cons in Hin as [->|Hin]); [..|by inversion Hin]];
    cbn [String.eqb Ascii.eqb Bool.eqb];
    rewrite bool_decide_eq_false_2
      by (refine (bool_decide_unpack _ _); by vm_compute);
    rewrite (run_bind_pure _ _ s () Hnoop); try done;
    (split; [by apply Hset|done]).
Qed.
End More.

(** ** Resolved attachments *)

Section Resolved.
Context `{Host}.

(** The trace of a flush whose resolution returned content. *)
Lemma sendBuffer_resolved s t c fn form :
  assetType s = Some t →
  outcome (maybeFile (Some t) s) = Ok (Some t, Some c, fn) →
  (let s1 := final (maybeFile (Some t) s) in
   append_fields (payload s1) (Dict.keys (payload s1)) s1 = mkRun [] (Ok form) s1) →
  trace (final (sendBuffer s))
  = trace (final (maybeFile (Some t) s))
    ++ [ApiCall (SendAsset (assetApi t) (form ++ [(slot t, FFile c fn)]))].
Proof.
  intros Ht Hok Happ. unfold sendBuffer.
  rewrite (run_bind_pure get _ s s) by done.
  rewrite bool_decide_eq_true_2 by (rewrite Ht; by eexists).
  unfold sendAsset. rewrite (run_bind_pure get _ s s) by done.
  rewrite Ht, run_bind, Hok. cbn [outcome final seen].
  set (s1 := final (maybeFile (Some t) s)) in *.
  rewrite (run_bind_pure get _ s1 s1) by done.
  rewrite (run_bind_pure _ _ s1 _ Happ). cbv zeta.
  rewrite run_bind, call_api_run. cbv zeta.
  destruct (internal _ _); cbn [outcome final seen]; [|done].
  by rewrite !run_bind.
Qed.

(** X12.  What a flush sends for a resolved reference, from a payload that
    holds the chat, the caption and the slot: the form is the chat, the
    caption and one file part under the slot name, never the reference as
    text.  A [file:] reference gives a read stream named ["file"]; a
    [base64:] reference gives the decoded buffer, named ["file"] outside
    the document slot and ["file.<ext>"] in it when the sniff finds
    [ext]. *)
Theorem resolved_attachment_form chat cap t u res tr :
  u ≠ "" →
  let s := resting chat cap (Some (t, u)) res tr in
  let call content filename :=
    ApiCall (SendAsset (assetApi t)
               [("chat_id", FText chat); ("caption", FText cap);
                (slot t, FFile content (Some filename))]) in
  (∀ path, URL_protocol u = Some "file:" → fileURLToPath u = Some path →
     trace (final (sendBuffer s))
     = tr ++ [OpenStream path; call (ReadStream path) "file"])
  ∧ (∀ d, URL_protocol u = Some "base64:" →
          JsString.split u "://" !! 1 = Some d → t ≠ document →
     trace (final (sendBuffer s))
     = tr ++ [call (Buffer (base64_decode d)) "file"])
  ∧ (∀ d ext, URL_protocol u = Some "base64:" →
          JsString.split u "://" !! 1 = Some d → t = document →
          fromBuffer (base64_decode d) = Some ext →
     trace (final (sendBuffer s))
     = tr ++ [Sniff (base64_decode d);
              call (Buffer (base64_decode d)) ("file." +:+ ext)]).
Proof.
  intros Hne%String.eqb_neq s call.
  assert (Dict.get (payload s) (slot t) = Some u) as Hget by by destruct t.
  split_and!.
  - intros path Hp Hpath.
    rewrite (sendBuffer_resolved s t (ReadStream path) (Some "file")
               [("chat_id", FText chat); ("caption", FText cap)] eq_refl).
    + rewrite maybeFile_run. cbn [key_of]. rewrite Hget, Hne, Hp, Hpath. simpl.
      by rewrite <- app_assoc.
    + rewrite maybeFile_run. cbn [key_of]. by rewrite Hget, Hne, Hp, Hpath.
    + rewrite maybeFile_run. cbn [key_of]. rewrite Hget, Hne, Hp, Hpath. by destruct t.
  - intros d Hp Hd Hdoc.
    assert (bool_decide (Some t = Some document) = false) as Hdec
      by (apply bool_decide_eq_false_2; congruence).
    rewrite (sendBuffer_resolved s t (Buffer (base64_decode d)) (Some "file")
               [("chat_id", FText chat); ("caption", FText cap)] eq_refl).
    + rewrite maybeFile_run. cbn [key_of]. rewrite Hget, Hne, Hp, Hd.
      unfold inline_or_throw, inline_run. by rewrite Hdec.
    + rewrite maybeFile_run. cbn [key_of]. rewrite Hget, Hne, Hp, Hd.
      unfold inline_or_throw, inline_run. by rewrite Hdec.
    + rewrite maybeFile_run. cbn [key_of]. rewrite Hget, Hne, Hp, Hd.
      unfold inline_or_throw, inline_run. rewrite Hdec. by destruct t.
  - intros d ext Hp Hd -> Hext.
    rewrite (sendBuffer_resolved s document (Buffer (base64_decode d))
               (Some ("file." +:+ ext))
               [("chat_id", FText chat); ("caption", FText cap)] eq_refl).
    + rewrite maybeFile_run. cbn [key_of]. rewrite Hget, Hne, Hp, Hd.
      unfold inline_or_throw, inline_run. simpl. rewrite Hext. simpl.
      by rewrite <- app_assoc.
    + rewrite maybeFile_run. cbn [key_of]. rewrite Hget, Hne, Hp, Hd.
      unfold inline_or_throw, inline_run. simpl. by rewrite Hext.
    + rewrite maybeFile_run. cbn [key_of]. rewrite Hget, Hne, Hp, Hd.
      unfold inline_or_throw, inline_run. simpl. by rewrite Hext.
Qed.

Lemma results_grow s elements :
  kept (λ s', ∃ more, results s' = results s ++ more) (sendMessage elements).
Proof.
  apply kept_sendMessage; try done.
  intros c s' [more Hmore] _. unfold answered.
  destruct (internal _ _) as [msg|e]; simpl; [|by exists more].
  exists (more ++ [msg]). by rewrite Hmore, app_assoc.
Qed.
End Resolved.

Section Reuse.
Context `{Host}.

(** X13.  A run only adds to [results]: whatever a sender holds from an
    earlier [send] is still there, in front, after [sendMessage], whether
    it returns or throws. *)
Theorem results_only_grow s elements :
  ∃ more, results (final (sendMessage elements s)) = results s ++ more.
Proof.
  apply (results_grow s elements s); [|done]. exists []. by rewrite app_nil_r.
Qed.
End Reuse.

(** ** The further properties on sample inputs *)

Lemma render_splices_witness :
  @render Sample.accepting
    ([Sample.text "a"] ++ Segment "b" ∅ [Sample.text "x"] :: [Sample.text "c"])
    (@new_Sender Sample.accepting "chat")
  = @render Sample.accepting
      ([Sample.text "a"] ++ [Sample.text "x"] ++ [Sample.text "c"])
      (@new_Sender Sample.accepting "chat").
Proof.
  apply (proj2 (@render_splices Sample.accepting "b" ∅ [Sample.text "x"]
                  [Sample.text "a"] [Sample.text "c"]
                  (@new_Sender Sample.accepting "chat"))).
  refine (bool_decide_unpack _ _). by vm_compute.
Defined.

Lemma flush_settles_witness :
  @flushed Sample.accepting
    (final (@sendBuffer Sample.accepting
              (@occupying Sample.accepting photo (Some "https://x/y.png")
                 (@new_Sender Sample.accepting "chat")))).
Proof.
  apply (proj1 (@flush_settles Sample.accepting
                  (@occupying Sample.accepting photo (Some "https://x/y.png")
                     (@new_Sender Sample.accepting "chat")))).
  reflexivity.
Defined.

Lemma malformed_reference_throws_witness :
  let s := @occupying Sample.accepting photo (Some "not a url")
             (@new_Sender Sample.accepting "chat") in
  @sendBuffer Sample.accepting s = mkRun [] (Throw (TypeError "new URL")) s.
Proof.
  intros s.
  apply (proj1 (@malformed_reference_throws Sample.accepting photo "not a url" s
                  eq_refl eq_refl ltac:(discriminate))).
  reflexivity.
Defined.

Lemma undefined_field_blocks_asset_send_witness :
  let s := with_payload (λ d, Dict.set d "reply_to_message_id" None)
             (@occupying Sample.accepting photo (Some "https://x/y.png")
                (@new_Sender Sample.accepting "chat")) in
  @sendBuffer Sample.accepting s = mkRun [] (Throw (TypeError "toString")) s.
Proof.
  intros s.
  apply (@undefined_field_blocks_asset_send Sample.accepting photo
           "reply_to_message_id" s eq_refl eq_refl eq_refl).
  right. exists "https://x/y.png", "https:".
  split_and!; (reflexivity || discriminate).
Defined.

Lemma media_without_url_witness :
  let r := @render_node Sample.accepting (Segment "audio" ∅ [])
             (@new_Sender Sample.accepting "chat") in
  outcome r = Ok ()
  ∧ @sendBuffer Sample.accepting (final r)
    = mkRun [] (Throw (TypeError "toString")) (final r).
Proof.
  intros r.
  apply (proj2 (@media_without_url Sample.accepting "audio" ∅ []
                  (@new_Sender Sample.accepting "chat")
                  (lookup_empty _) ltac:(reflexivity))).
  refine (bool_decide_unpack _ _). by vm_compute.
Defined.

Lemma results_are_answers_witness :
  let r := @send Sample.accepting "a<markdown/>b"
             (@new_Sender Sample.accepting "chat") in
  ∃ res, outcome r = Ok res ∧ res = @answers Sample.accepting (trace (final r)).
Proof.
  intros r. exists [0; 1]. split; [reflexivity|].
  apply (proj2 (@results_are_answers Sample.accepting "chat" "a<markdown/>b")).
  reflexivity.
Defined.

Lemma calls_target_chat_witness :
  targets "chat" (SendMessage "chat" "a" None None).
Proof.
  apply (@calls_target_chat Sample.accepting "chat" [Sample.text "a"]).
  vm_compute. left.
Defined.

Lemma text_only_run_witness :
  trace (final (@sendMessage Sample.accepting
                  [Sample.text "hi "; Segment "at" {[ "id" := "42" ]} [];
                   Sample.text " check"]
                  (@new_Sender Sample.accepting "chat")))
  = [ApiCall (SendMessage "chat" "hi @42  check" None None)].
Proof.
  exact (@text_only_run Sample.accepting
           [Sample.text "hi "; Segment "at" {[ "id" := "42" ]} [];
            Sample.text " check"] "chat" eq_refl).
Defined.

Lemma batching_plan_witness :
  trace (final (@sendMessage Sample.accepting
                  [Sample.text "see "; Sample.image "https://x/y.png";
                   Sample.text "one"; Sample.image "https://x/z.GIF"]
                  (@new_Sender Sample.accepting "chat")))
  = [ApiCall (SendMessage "chat" "see " None None);
     ApiCall (SendAsset "sendPhoto"
                [("chat_id", FText "chat"); ("caption", FText "one");
                 ("photo", FText "https://x/y.png")]);
     ApiCall (SendAsset "sendAnimation"
                [("chat_id", FText "chat"); ("caption", FText "");
                 ("animation", FText "https://x/z.GIF")])].
Proof.
  assert (∀ u, u = "https://x/y.png" ∨ u = "https://x/z.GIF" →
            @remote Sample.accepting u) as Hremote.
  { intros u [-> | ->]; (split; [discriminate|]); exists "https:";
      split_and!; (reflexivity || discriminate). }
  assert (∀ u, u = "https://x/y.png" ∨ u = "https://x/z.GIF" →
            @simple Sample.accepting (Sample.image u)) as Hmedia.
  { intros u Hu. right. split.
    - refine (bool_decide_unpack _ _). by vm_compute.
    - exists u. split; [by destruct Hu as [-> | ->]|by apply Hremote]. }
  assert (Forall (@simple Sample.accepting)
            [Sample.text "see "; Sample.image "https://x/y.png";
             Sample.text "one"; Sample.image "https://x/z.GIF"]) as Hall.
  { repeat apply Forall_cons_2; [by left|apply Hmedia; auto|by left
                                 |apply Hmedia; auto|apply Forall_nil_2]. }
  apply (proj2 (@batching_plan Sample.accepting
                  ltac:(intros tr c; by eexists) _ "chat" Hall)).
Defined.

Lemma nested_message_witness :
  @flushed Sample.accepting
    (final (@render_node Sample.accepting
              (Segment "message" ∅ [Sample.text "x"])
              (@new_Sender Sample.accepting "chat"))).
Proof.
  apply (proj2 (proj2 (@nested_message Sample.accepting ∅ [Sample.text "x"]
                         (@new_Sender Sample.accepting "chat"))));
    reflexivity.
Defined.

Lemma control_nodes_send_nothing_witness :
  let s := @new_Sender Sample.accepting "chat" in
  let s' := with_payload (λ d, Dict.set d "reply_to_message_id" (Some "7")) s in
  @render_node Sample.accepting (Sample.quote "7") s = mkRun [s'] (Ok ()) s'.
Proof.
  intros s s'.
  apply (proj1 (@control_nodes_send_nothing Sample.accepting "quote"
                  {[ "id" := "7" ]} [] s ltac:(split; reflexivity))).
  reflexivity.
Defined.

Lemma resolved_attachment_form_witness :
  trace (final (@sendBuffer Sample.accepting
                  (@resting Sample.accepting "chat" "hi"
                     (Some (animation, "file:///tmp/a.gif")) [] [])))
  = [OpenStream "/tmp/a.gif";
     ApiCall (SendAsset "sendAnimation"
                [("chat_id", FText "chat"); ("caption", FText "hi");
                 ("animation", FFile (ReadStream "/tmp/a.gif") (Some "file"))])].
Proof.
  apply (proj1 (@resolved_attachment_form Sample.accepting "chat" "hi" animation
                  "file:///tmp/a.gif" [] [] ltac:(discriminate))
           "/tmp/a.gif"); reflexivity.
Defined.
